(** * Spottie: the genre categorization helpers of [frontend/src/script.ts]

    A shallow embedding of [fetchArtistGenres], [enrichTracksWithGenres] and
    [categorizeTracksByGenre], together with the fragment of the JavaScript
    object model these functions rely on: plain objects used as string-keyed
    maps (property lookup through [Object.prototype], own-key enumeration
    order), [Set] used for deduplication, [Array.prototype.flatMap] and
    [Array.prototype.sort] with a comparator. *)

From Stdlib Require Import List String Ascii ZArith NArith Lia Bool.
From Stdlib Require Import Permutation Sorted.
From Stdlib Require Import DecimalString DecimalN DecimalPos.
Import ListNotations.

Local Open Scope string_scope.
Local Open Scope list_scope.

(** ** Completions: a call either returns or throws *)

Inductive Exception : Type :=
| TypeError (message : string)
| Rejection (reason : string).

Inductive Result (A : Type) : Type :=
| Ok (a : A)
| Throw (e : Exception).

Arguments Ok {A} a.
Arguments Throw {A} e.

Definition bind {A B : Type} (m : Result A) (k : A -> Result B) : Result B :=
  match m with
  | Ok a => k a
  | Throw e => Throw e
  end.

Notation "x <- m ;; k" := (bind m (fun x => k))
  (at level 61, m at next level, right associativity).

(** [xs.forEach(x => body)] where [body] updates a store and may throw: the
    first exception aborts the loop. *)
Fixpoint forEach {S A : Type} (body : S -> A -> Result S) (xs : list A) (s : S)
  : Result S :=
  match xs with
  | [] => Ok s
  | x :: rest => s' <- body s x ;; forEach body rest s'
  end.

(** ** JavaScript objects used as maps *)

Module Js.

(** The own properties of an ordinary object, in order of creation. *)
Definition Obj (V : Type) : Type := list (string * V).

(** The property names every plain object inherits from [Object.prototype]
    in a browser.  Each of them holds a function, except [__proto__], an
    accessor that yields [Object.prototype] itself: all are truthy, none
    is an array. *)
Definition objectPrototypeMembers : list string :=
  [ "constructor"; "__defineGetter__"; "__defineSetter__"; "hasOwnProperty";
    "__lookupGetter__"; "__lookupSetter__"; "isPrototypeOf";
    "propertyIsEnumerable"; "toString"; "valueOf"; "__proto__";
    "toLocaleString" ].

Definition isPrototypeMember (k : string) : bool :=
  existsb (String.eqb k) objectPrototypeMembers.

(** What [o[k]] evaluates to. *)
Inductive Lookup (V : Type) : Type :=
| Own (v : V)
| Inherited (member : string)
| Undefined.

Arguments Own {V} v.
Arguments Inherited {V} member.
Arguments Undefined {V}.

Section Properties.
Context {V : Type}.

Fixpoint own (o : Obj V) (k : string) : option V :=
  match o with
  | [] => None
  | (k', v) :: rest => if String.eqb k' k then Some v else own rest k
  end.

(** [o[k]]: the own property if there is one, else the prototype chain. *)
Definition get (o : Obj V) (k : string) : Lookup V :=
  match own o k with
  | Some v => Own v
  | None => if isPrototypeMember k then Inherited k else Undefined
  end.

(** [!o[k]] for an object whose own values are arrays: arrays, functions
    and objects are truthy, [undefined] is falsy. *)
Definition falsy (r : Lookup V) : bool :=
  match r with
  | Undefined => true
  | _ => false
  end.

(** [o[k] = v] for a key that is not [__proto__]: an existing own property
    keeps its place, a new one is created last. *)
Fixpoint set (o : Obj V) (k : string) (v : V) : Obj V :=
  match o with
  | [] => [(k, v)]
  | (k', v') :: rest =>
      if String.eqb k' k then (k', v) :: rest else (k', v') :: set rest k v
  end.

End Properties.

(** *** Own-key enumeration order

    [Object.keys], [Object.entries], [Object.values] and [for-in] list the
    own string keys that are array indices first, in ascending numeric
    order, and then the other string keys in order of creation. *)

Definition isDigit (c : ascii) : bool :=
  let n := N_of_ascii c in (N.leb 48 n && N.leb n 57)%bool.

Fixpoint digitsValue (s : string) (acc : N) : option N :=
  match s with
  | EmptyString => Some acc
  | String c rest =>
      if isDigit c
      then digitsValue rest (acc * 10 + (N_of_ascii c - 48))%N
      else None
  end.

(** An array index is the canonical decimal form of an integer between
    0 and 2^32 - 2: no sign, no leading zero. *)
Definition arrayIndex (k : string) : option N :=
  match k with
  | EmptyString => None
  | String c rest =>
      if Ascii.eqb c "0"%char
      then match rest with EmptyString => Some 0%N | _ => None end
      else match digitsValue k 0 with
           | Some n => if N.leb n 4294967294 then Some n else None
           | None => None
           end
  end.

Definition isArrayIndex (k : string) : bool :=
  match arrayIndex k with Some _ => true | None => false end.

Fixpoint insertIndex (x : N * string) (l : list (N * string)) : list (N * string) :=
  match l with
  | [] => [x]
  | y :: rest => if N.leb (fst x) (fst y) then x :: l else y :: insertIndex x rest
  end.

Fixpoint indexKeys (ks : list string) : list (N * string) :=
  match ks with
  | [] => []
  | k :: rest =>
      match arrayIndex k with
      | Some n => insertIndex (n, k) (indexKeys rest)
      | None => indexKeys rest
      end
  end.

Definition keys {V : Type} (o : Obj V) : list string :=
  let created := map fst o in
  map snd (indexKeys created) ++ filter (fun k => negb (isArrayIndex k)) created.

(** [Object.values(o)]. *)
Definition values {V : Type} (o : Obj V) : list V :=
  flat_map (fun k => match own o k with Some v => [v] | None => [] end) (keys o).

(** *** [Array.prototype.sort(compare)]

    The sort is stable (ECMAScript 2019); for a comparator that is a
    consistent ordering the result does not depend on the algorithm, so a
    stable insertion sort stands for it. *)
Section Sort.
Context {A : Type} (compare : A -> A -> Z).

Fixpoint sortInsert (x : A) (l : list A) : list A :=
  match l with
  | [] => [x]
  | y :: rest =>
      if (compare x y <=? 0)%Z then x :: l else y :: sortInsert x rest
  end.

Definition sort (l : list A) : list A := fold_right sortInsert [] l.
End Sort.

(** *** [[...new Set(xs)]]: the distinct elements, in order of first
    occurrence. *)
Section SetSpread.
Context {A : Type} (eqb : A -> A -> bool).

Definition setAdd (seen : list A) (x : A) : list A :=
  if existsb (eqb x) seen then seen else seen ++ [x].

Definition spreadSet (xs : list A) : list A := fold_left setAdd xs [].
End SetSpread.

End Js.

(** ** Data model *)

(** The values that can sit in a track's [genres] array: the labels of the
    catalog, and members of [Object.prototype] read through the catalog
    object. *)
Inductive JsValue : Type :=
| JString (s : string)
| JProtoMember (member : string).

Definition JsValue_eqb (a b : JsValue) : bool :=
  match a, b with
  | JString s, JString t => String.eqb s t
  | JProtoMember m, JProtoMember n => String.eqb m n
  | _, _ => false
  end.

(** The property key a value denotes when used in [o[value]].  The text of a
    built-in function differs between engines in white space only. *)
Definition toPropertyKey (v : JsValue) : string :=
  match v with
  | JString s => s
  | JProtoMember m =>
      if String.eqb m "__proto__" then "[object Object]"
      else "function " ++ (if String.eqb m "constructor" then "Object" else m)
           ++ "() { [native code] }"
  end.

Record Artist : Type := mkArtist {
  artist_id : string;
  artist_name : string
}.

Record Track : Type := mkTrack {
  track_id : string;
  track_name : string;
  artists : list Artist;
  album_name : string;
  popularity : Z;
  preview_url : option string;
  added_at : string;
  genres : option (list JsValue)   (* [None]: the field is missing *)
}.

(** [{...track, genres: gs}] *)
Definition withGenres (track : Track) (gs : list JsValue) : Track :=
  {| track_id := track_id track;
     track_name := track_name track;
     artists := artists track;
     album_name := album_name track;
     popularity := popularity track;
     preview_url := preview_url track;
     added_at := added_at track;
     genres := Some gs |}.

(** The artist-to-genres mapping parsed from the backend's answer. *)
Definition Catalog : Type := Js.Obj (list string).

(** The result of the categorizer: a plain object from labels to buckets. *)
Definition Categorized : Type := Js.Obj (list Track).

(** ** [categorizeTracksByGenre] *)

(** [if (!categorized[key]) { categorized[key] = []; }
    categorized[key].push(track);], which the source writes twice: with
    [genre] and with ['Uncategorized'] for [key]. *)
Definition pushInto (categorized : Categorized) (key : string) (track : Track)
  : Result Categorized :=
  let categorized :=
    if Js.falsy (Js.get categorized key) then Js.set categorized key []
    else categorized in
  match Js.get categorized key with
  | Js.Own bucket => Ok (Js.set categorized key (bucket ++ [track]))
  | Js.Inherited _ =>
      Throw (TypeError "categorized[genre].push is not a function")
  | Js.Undefined =>
      Throw (TypeError "Cannot read properties of undefined (reading 'push')")
  end.

(** The body of [tracks.forEach]. *)
Definition addTrack (categorized : Categorized) (track : Track)
  : Result Categorized :=
  match genres track with
  | Some (g :: gs) =>
      forEach (fun categorized genre => pushInto categorized (toPropertyKey genre) track)
              (g :: gs) categorized
  | _ => pushInto categorized "Uncategorized" track
  end.

(** [categorized[k].length], for [k] among [Object.keys(categorized)]. *)
Definition bucketOf (categorized : Categorized) (k : string) : list Track :=
  match Js.own categorized k with
  | Some bucket => bucket
  | None => []
  end.

Definition bySizeDescending (categorized : Categorized) (a b : string) : Z :=
  Z.of_nat (List.length (bucketOf categorized b))
  - Z.of_nat (List.length (bucketOf categorized a)).

Definition categorizeTracksByGenre (tracks : list Track) : Result Categorized :=
  categorized <- forEach addTrack tracks [] ;;
  let sortedKeys := Js.sort (bySizeDescending categorized) (Js.keys categorized) in
  Ok (fold_left
        (fun sortedCategories genre =>
           Js.set sortedCategories genre (bucketOf categorized genre))
        sortedKeys []).

(** [totalTracks] of [displayCategorizedTracks]:
    [Object.values(categorizedTracks).reduce((sum, tracks) => sum + tracks.length, 0)]. *)
Definition totalTracks (categorizedTracks : Categorized) : nat :=
  fold_left (fun sum tracks => sum + List.length tracks)
            (Js.values categorizedTracks) 0.

(** [genreCount] of [displayCategorizedTracks]:
    [Object.keys(categorizedTracks).length]. *)
Definition categoryCount (categorizedTracks : Categorized) : nat :=
  List.length (Js.keys categorizedTracks).

(** ** [fetchArtistGenres] and [enrichTracksWithGenres] *)

Record Request : Type := mkRequest {
  url : string;
  method : string;
  authorization : string;
  contentType : string;
  artist_ids : list string      (* the body, [{ artist_ids: artistIds }] *)
}.

Record Response : Type := mkResponse {
  status : Z;
  body : string
}.

Definition BACKEND_URL : string := "http://127.0.0.1:5000".

(** [const artistIds = [...new Set(tracks.flatMap(track =>
    track.artists.map(artist => artist.id)))]] *)
Definition uniqueArtistIds (tracks : list Track) : list string :=
  Js.spreadSet String.eqb
    (flat_map (fun track => map artist_id (artists track)) tracks).

(** What the [flatMap] callback [artist => artistGenreMap[artist.id] || []]
    adds for one artist: an array is spliced in, any other truthy value is
    kept as a single element, a falsy one is replaced by the empty array. *)
Definition contribution (artistGenreMap : Catalog) (artist : Artist)
  : list JsValue :=
  match Js.get artistGenreMap (artist_id artist) with
  | Js.Own labels => map JString labels
  | Js.Inherited member => [JProtoMember member]
  | Js.Undefined => []
  end.

(** [{...track, genres: [...new Set(track.artists.flatMap(...))]}] *)
Definition enrichTrack (artistGenreMap : Catalog) (track : Track) : Track :=
  withGenres track
    (Js.spreadSet JsValue_eqb
       (flat_map (contribution artistGenreMap) (artists track))).

Section Pipeline.
(** The network: [fetch] resolves to a response or rejects; [json] parses
    the body of a response or rejects.  Neither looks at the status. *)
Variable fetch : Request -> Result Response.
Variable json : Response -> Result Catalog.

Definition fetchArtistGenres (token : string) (artistIds : list string)
  : Result Catalog :=
  result <- fetch {| url := BACKEND_URL ++ "/api/artists";
                     method := "POST";
                     authorization := "Bearer " ++ token;
                     contentType := "application/json";
                     artist_ids := artistIds |} ;;
  json result.

Definition enrichTracksWithGenres (token : string) (tracks : list Track)
  : Result (list Track) :=
  let artistIds := uniqueArtistIds tracks in
  artistGenreMap <- fetchArtistGenres token artistIds ;;
  Ok (map (enrichTrack artistGenreMap) tracks).

(** Enrichment followed by categorization. *)
Definition categorizeTracks (token : string) (tracks : list Track)
  : Result Categorized :=
  enriched <- enrichTracksWithGenres token tracks ;;
  categorizeTracksByGenre enriched.
End Pipeline.

(** ** Strings

    A string is a sequence of 8-bit characters.  For strings of ASCII
    characters the functions below are the JavaScript ones; the case mappings
    leave every other character as it is, which the engine does not, so the
    statements about them are made for ASCII strings. *)

Module JsString.

Definition isAsciiChar (c : ascii) : bool := N.ltb (N_of_ascii c) 128.

Fixpoint isAscii (s : string) : bool :=
  match s with
  | EmptyString => true
  | String c rest => (isAsciiChar c && isAscii rest)%bool
  end.

Definition isLower (c : ascii) : bool :=
  let n := N_of_ascii c in (N.leb 97 n && N.leb n 122)%bool.

Definition isUpper (c : ascii) : bool :=
  let n := N_of_ascii c in (N.leb 65 n && N.leb n 90)%bool.

Definition upperChar (c : ascii) : ascii :=
  if isLower c then ascii_of_N (N_of_ascii c - 32) else c.

Definition lowerChar (c : ascii) : ascii :=
  if isUpper c then ascii_of_N (N_of_ascii c + 32) else c.

Fixpoint mapChars (f : ascii -> ascii) (s : string) : string :=
  match s with
  | EmptyString => EmptyString
  | String c rest => String (f c) (mapChars f rest)
  end.

(** [s.toUpperCase()], [s.toLowerCase()] *)
Definition toUpperCase (s : string) : string := mapChars upperChar s.
Definition toLowerCase (s : string) : string := mapChars lowerChar s.

(** [s.charAt(0)]: the first character, or the empty string. *)
Definition charAt0 (s : string) : string :=
  match s with
  | EmptyString => EmptyString
  | String c _ => String c EmptyString
  end.

(** [s.charAt(i)] for an integer [i]: the empty string out of range. *)
Definition charAt (s : string) (i : Z) : string :=
  if (i <? 0)%Z then EmptyString
  else match String.get (Z.to_nat i) s with
       | Some c => String c EmptyString
       | None => EmptyString
       end.

(** [s.slice(1)] *)
Definition slice1 (s : string) : string :=
  match s with
  | EmptyString => EmptyString
  | String _ rest => rest
  end.

(** [s.split(sep)] for a one-character separator: the first piece and the
    pieces after it. *)
Fixpoint splitAt (sep : ascii) (s : string) : string * list string :=
  match s with
  | EmptyString => (EmptyString, [])
  | String c rest =>
      let (piece, pieces) := splitAt sep rest in
      if Ascii.eqb c sep then (EmptyString, piece :: pieces)
      else (String c piece, pieces)
  end.

Definition split (sep : ascii) (s : string) : list string :=
  let (piece, pieces) := splitAt sep s in piece :: pieces.

(** [pieces.join(sep)] *)
Fixpoint join (sep : string) (pieces : list string) : string :=
  match pieces with
  | [] => EmptyString
  | [piece] => piece
  | piece :: rest => piece ++ sep ++ join sep rest
  end.

(** [s.includes(sub)] *)
Fixpoint includes (s sub : string) : bool :=
  if String.prefix sub s then true
  else match s with
       | EmptyString => false
       | String _ rest => includes rest sub
       end.

(** [s.replace(/c/g, d)] for characters [c] and [d]. *)
Definition replaceAll (c d : ascii) (s : string) : string :=
  mapChars (fun x => if Ascii.eqb x c then d else x) s.

(** [s.replace(/=+$/, '')]: the string without its final run of [=]. *)
Fixpoint stripPadding (s : string) : string :=
  match s with
  | EmptyString => EmptyString
  | String c rest =>
      match stripPadding rest with
      | EmptyString => if Ascii.eqb c "=" then EmptyString else String c EmptyString
      | stripped => String c stripped
      end
  end.

Definition base64Alphabet : string :=
  "ABCDEFGHIJKLMNOPQRSTUVWXYZabcdefghijklmnopqrstuvwxyz0123456789+/".

Definition base64Char (sextet : N) : ascii :=
  match String.get (N.to_nat sextet) base64Alphabet with
  | Some c => c
  | None => "="%char
  end.

(** [btoa(s)]: three characters of [s] give four of the result; one or two
    left over give two or three, padded with [=] to four. *)
Fixpoint btoa (s : string) : string :=
  match s with
  | EmptyString => EmptyString
  | String a EmptyString =>
      let x := N_of_ascii a in
      String (base64Char (x / 4))
        (String (base64Char ((x mod 4) * 16)) "==")
  | String a (String b EmptyString) =>
      let x := N_of_ascii a in
      let y := N_of_ascii b in
      String (base64Char (x / 4))
        (String (base64Char ((x mod 4) * 16 + y / 16))
           (String (base64Char ((y mod 16) * 4)) "="))
  | String a (String b (String c rest)) =>
      let x := N_of_ascii a in
      let y := N_of_ascii b in
      let z := N_of_ascii c in
      String (base64Char (x / 4))
        (String (base64Char ((x mod 4) * 16 + y / 16))
           (String (base64Char ((y mod 16) * 4 + z / 64))
              (String (base64Char (z mod 64)) (btoa rest))))
  end.

End JsString.

(** ** [capitalizeGenre] and [getGenreEmoji] *)

(** [word => word.charAt(0).toUpperCase() + word.slice(1)] *)
Definition capitalizeWord (word : string) : string :=
  JsString.toUpperCase (JsString.charAt0 word) ++ JsString.slice1 word.

Definition capitalizeGenre (genre : string) : string :=
  JsString.join " " (map capitalizeWord (JsString.split " " genre)).

Definition getGenreEmoji (genre : string) : string :=
  let genreLower := JsString.toLowerCase genre in
  let includes := JsString.includes genreLower in
  if includes "rock" then "🎸"
  else if includes "pop" then "🎤"
  else if (includes "hip hop" || includes "rap")%bool then "🎧"
  else if includes "jazz" then "🎷"
  else if includes "classical" then "🎻"
  else if (includes "electronic" || includes "edm")%bool then "🎹"
  else if includes "country" then "🤠"
  else if (includes "r&b" || includes "soul")%bool then "💜"
  else if includes "metal" then "🤘"
  else if includes "indie" then "🌟"
  else if includes "folk" then "🪕"
  else if includes "latin" then "💃"
  else if includes "reggae" then "🌴"
  else if includes "blues" then "🎺"
  else if includes "punk" then "⚡"
  else if includes "disco" then "🕺"
  else if includes "funk" then "🎵"
  else "🎵".

(** ** [generateCodeVerifier] and [generateCodeChallenge] *)

Definition possible : string :=
  "ABCDEFGHIJKLMNOPQRSTUVWXYZabcdefghijklmnopqrstuvwxyz0123456789".

(** The loop of [generateCodeVerifier], from iteration [i] on; [draw i] is
    the value of [Math.floor(Math.random() * possible.length)] in
    iteration [i]. *)
Fixpoint verifierLoop (draw : nat -> Z) (i remaining : nat) (text : string)
  : string :=
  match remaining with
  | O => text
  | S remaining' =>
      verifierLoop draw (S i) remaining'
        (text ++ JsString.charAt possible (draw i))
  end.

Definition generateCodeVerifier (draw : nat -> Z) (length : nat) : string :=
  verifierLoop draw 0 length EmptyString.

Section Challenge.
(** [window.crypto.subtle.digest('SHA-256', data)], as a string of the
    digest's bytes. *)
Variable sha256 : string -> string.

Definition generateCodeChallenge (codeVerifier : string) : string :=
  let data := codeVerifier in
  let digest := sha256 data in
  JsString.stripPadding
    (JsString.replaceAll "/" "_"
       (JsString.replaceAll "+" "-" (JsString.btoa digest))).
End Challenge.

(** ** Numbers and text

    [Date.now()] and the expiry times are integers far below 2^53, where
    JavaScript numbers are exact; they are modelled by [Z]. *)

Module JsNumber.

(** [n.toString()] for an integer [n]. *)
Definition toString (n : Z) : string :=
  DecimalString.NilZero.string_of_int (Z.to_int n).

(** The value of a character as a digit in the given radix. *)
Definition digitValue (radix : N) (c : ascii) : option N :=
  let n := N_of_ascii c in
  let d := if (N.leb 48 n && N.leb n 57)%bool then Some (n - 48)%N
           else if (N.leb 97 n && N.leb n 122)%bool then Some (n - 87)%N
           else if (N.leb 65 n && N.leb n 90)%bool then Some (n - 55)%N
           else None in
  match d with
  | Some v => if N.ltb v radix then Some v else None
  | None => None
  end.

(** The number written by the longest prefix of digits; [acc] is [None]
    until a digit was read. *)
Fixpoint parseDigits (radix : N) (s : string) (acc : option N) : option N :=
  match s with
  | EmptyString => acc
  | String c rest =>
      match digitValue radix c with
      | Some d =>
          parseDigits radix rest
            (Some (match acc with Some a => a * radix + d | None => d end)%N)
      | None => acc
      end
  end.

Definition isWhitespace (c : ascii) : bool :=
  let n := N_of_ascii c in
  (N.eqb n 9 || N.eqb n 10 || N.eqb n 11 || N.eqb n 12 || N.eqb n 13
   || N.eqb n 32)%bool.

Fixpoint trimStart (s : string) : string :=
  match s with
  | EmptyString => EmptyString
  | String c rest => if isWhitespace c then trimStart rest else s
  end.

(** [parseInt(s)]: leading white space, a sign, [0x] or [0X] for radix 16,
    then the longest prefix of digits; [None] is [NaN]. *)
Definition parseInt (s : string) : option Z :=
  let s := trimStart s in
  let (sign, s) :=
    match s with
    | String "-" rest => ((-1)%Z, rest)
    | String "+" rest => (1%Z, rest)
    | _ => (1%Z, s)
    end in
  let (radix, s) :=
    match s with
    | String "0" (String "x" rest) => (16%N, rest)
    | String "0" (String "X" rest) => (16%N, rest)
    | _ => (10%N, s)
    end in
  match parseDigits radix s None with
  | Some n => Some (sign * Z.of_N n)%Z
  | None => None
  end.

(** [a < b] where [b] may be [NaN]. *)
Definition lessThan (a : Z) (b : option Z) : bool :=
  match b with
  | Some n => (a <? n)%Z
  | None => false
  end.

End JsNumber.

(** ** Session start: [init], [loadUserData], [redirectToAuthCodeFlow],
    [getAccessToken] *)

(** [localStorage]: text under text keys. *)
Definition Storage : Type := list (string * string).

Definition getItem (storage : Storage) (key : string) : option string :=
  Js.own storage key.

Definition setItem (storage : Storage) (key value : string) : Storage :=
  Js.set storage key value.

Definition removeItem (storage : Storage) (key : string) : Storage :=
  filter (fun p => negb (String.eqb (fst p) key)) storage.

(** A value that is a string, [null] or [undefined] ([None]). *)
Definition truthy (v : option string) : bool :=
  match v with
  | Some (String _ _) => true
  | _ => false
  end.

(** The text a storage or a parameter list makes of a value that may be
    missing. *)
Definition textOr (missing : string) (v : option string) : string :=
  match v with
  | Some s => s
  | None => missing
  end.

(** The parameters of the page the browser is sent to. *)
Record AuthorizeRequest : Type := mkAuthorizeRequest {
  authorize_url : string;
  authorize_client_id : string;
  response_type : string;
  authorize_redirect_uri : string;
  scope : string;
  code_challenge_method : string;
  code_challenge : string
}.

(** The parameters posted to the token endpoint. *)
Record TokenRequest : Type := mkTokenRequest {
  token_url : string;
  token_client_id : string;
  grant_type : string;
  code : string;
  token_redirect_uri : string;
  code_verifier : string
}.

(** What is outside the page. *)
Record Env : Type := mkEnv {
  clientId : string;
  (** [Date.now()] when [init] tests the stored token, and when it stores a
      new one *)
  nowAtCheck : Z;
  nowAtStore : Z;
  (** the [Math.floor(Math.random() * possible.length)] of each iteration *)
  draw : nat -> Z;
  digest : string -> string;
  (** the token endpoint: [access_token] of the parsed answer ([None] when
      the answer has no such field), or a rejection of [fetch] or [json] *)
  tokenEndpoint : TokenRequest -> Result (option string);
  (** the [try] block of [loadUserData], given the text put after [Bearer] *)
  showUserData : string -> Result unit
}.

(** What the page has done. *)
Record World : Type := mkWorld {
  storage : Storage;
  location : option AuthorizeRequest;   (* [document.location], once assigned *)
  historyReplaced : bool;               (* [window.history.replaceState] *)
  displayed : option string             (* the bearer text whose data is shown *)
}.

Definition withStorage (w : World) (st : Storage) : World :=
  {| storage := st; location := location w;
     historyReplaced := historyReplaced w; displayed := displayed w |}.

Definition REDIRECT_URI : string := "http://127.0.0.1:5173/callback".

Definition redirectToAuthCodeFlow (env : Env) (w : World) : World :=
  let verifier := generateCodeVerifier (draw env) 128 in
  let challenge := generateCodeChallenge (digest env) verifier in
  {| storage := setItem (storage w) "verifier" verifier;
     location :=
       Some {| authorize_url := "https://accounts.spotify.com/authorize";
               authorize_client_id := clientId env;
               response_type := "code";
               authorize_redirect_uri := REDIRECT_URI;
               scope := "user-read-private user-read-email user-top-read user-library-read";
               code_challenge_method := "S256";
               code_challenge := challenge |};
     historyReplaced := historyReplaced w;
     displayed := displayed w |}.

(** The three [localStorage.removeItem] of the [catch] blocks. *)
Definition clearSession (w : World) : World :=
  withStorage w
    (removeItem (removeItem (removeItem (storage w) "access_token")
                            "token_expiry")
                "verifier").

Definition loadUserData (env : Env) (accessToken : option string) (w : World)
  : World :=
  match showUserData env (textOr "undefined" accessToken) with
  | Ok _ =>
      {| storage := storage w; location := location w;
         historyReplaced := historyReplaced w;
         displayed := Some (textOr "undefined" accessToken) |}
  | Throw _ => redirectToAuthCodeFlow env (clearSession w)
  end.

Definition tokenRequest (env : Env) (code : string) (w : World) : TokenRequest :=
  let verifier := getItem (storage w) "verifier" in
  {| token_url := "https://accounts.spotify.com/api/token";
     token_client_id := clientId env;
     grant_type := "authorization_code";
     code := code;
     token_redirect_uri := REDIRECT_URI;
     code_verifier := textOr "null" verifier |}.

Definition getAccessToken (env : Env) (code : string) (w : World)
  : Result (option string) :=
  tokenEndpoint env (tokenRequest env code w).

(** [storedToken && tokenExpiry && Date.now() < parseInt(tokenExpiry)] *)
Definition storedTokenValid (env : Env) (w : World) : bool :=
  let storedToken := getItem (storage w) "access_token" in
  let tokenExpiry := getItem (storage w) "token_expiry" in
  (truthy storedToken && truthy tokenExpiry
   && JsNumber.lessThan (nowAtCheck env)
        (JsNumber.parseInt (textOr "" tokenExpiry)))%bool.

(** [init], given the [code] parameter of the page's address ([None] when
    there is none). *)
Definition init (env : Env) (code : option string) (w : World) : World :=
  let storedToken := getItem (storage w) "access_token" in
  if storedTokenValid env w then loadUserData env storedToken w
  else if truthy code then
    match getAccessToken env (textOr "" code) w with
    | Ok accessToken =>
        let st := setItem (storage w) "access_token"
                          (textOr "undefined" accessToken) in
        let st := setItem st "token_expiry"
                          (JsNumber.toString (nowAtStore env + 3600000)) in
        loadUserData env accessToken
          {| storage := st; location := location w;
             historyReplaced := true; displayed := displayed w |}
    | Throw _ => redirectToAuthCodeFlow env (clearSession w)
    end
  else redirectToAuthCodeFlow env w.

(** ** Vocabulary of the statements *)

(** The keys under which the loop body files a track. *)
Definition trackKeys (track : Track) : list string :=
  match genres track with
  | Some (g :: gs) => map toPropertyKey (g :: gs)
  | _ => ["Uncategorized"]
  end.

Definition events (tracks : list Track) : list (string * Track) :=
  flat_map (fun track => map (fun k => (k, track)) (trackKeys track)) tracks.

(** The store after a push that does not throw. *)
Definition appendTo (categorized : Categorized) (e : string * Track) : Categorized :=
  Js.set categorized (fst e) (bucketOf categorized (fst e) ++ [snd e]).

Definition build (evs : list (string * Track)) (categorized : Categorized)
  : Categorized :=
  fold_left appendTo evs categorized.

Definition pushError : Exception :=
  TypeError "categorized[genre].push is not a function".

Definition safeKey (k : string) : Prop := Js.isPrototypeMember k = false.

(** No label met by the scan names a member of [Object.prototype]. *)
Definition allSafe (evs : list (string * Track)) : bool :=
  forallb (fun e => negb (Js.isPrototypeMember (fst e))) evs.

(** The second half of the function: sort the keys, rebuild the object. *)
Definition finish (categorized : Categorized) : Categorized :=
  fold_left
    (fun sortedCategories genre =>
       Js.set sortedCategories genre (bucketOf categorized genre))
    (Js.sort (bySizeDescending categorized) (Js.keys categorized)) [].

(** The number of genres a track carries ([0] when the field is missing). *)
Definition genreCount (track : Track) : nat :=
  match genres track with
  | Some gs => List.length gs
  | None => 0
  end.

(** The number of entries of a store, all buckets together. *)
Definition stored (categorized : Categorized) : nat :=
  list_sum (map (fun p => List.length (snd p)) categorized).

(** The distinct elements of a list in order of first occurrence, by
    recursion on the list. *)
Fixpoint firstSeen {A : Type} (eqb : A -> A -> bool) (xs : list A) : list A :=
  match xs with
  | [] => []
  | x :: rest => x :: filter (fun y => negb (eqb x y)) (firstSeen eqb rest)
  end.

(** White space: tab, line feed, vertical tab, form feed, carriage return,
    space. *)
Definition isWhitespace (c : ascii) : bool :=
  let n := N_of_ascii c in
  (N.eqb n 9 || N.eqb n 10 || N.eqb n 11 || N.eqb n 12 || N.eqb n 13
   || N.eqb n 32)%bool.

(** A label that is empty or made of white space only. *)
Fixpoint blank (s : string) : bool :=
  match s with
  | EmptyString => true
  | String c rest => (isWhitespace c && blank rest)%bool
  end.

(** All buckets of a result in one list: [Object.values(result).flat()]. *)
Definition flatten (result : Categorized) : list Track :=
  List.concat (Js.values result).

(** A track that was never enriched, or enriched to no genre at all. *)
Definition unenriched (track : Track) : Prop :=
  genres track = None \/ genres track = Some [].

(** Two tracks that agree on every field but [genres]. *)
Definition sameButGenres (track track' : Track) : Prop :=
  track_id track' = track_id track
  /\ track_name track' = track_name track
  /\ artists track' = artists track
  /\ album_name track' = album_name track
  /\ popularity track' = popularity track
  /\ preview_url track' = preview_url track
  /\ added_at track' = added_at track.

(** The labels the catalog holds for an artist, none if it has no entry. *)
Definition labelsOf (artistGenreMap : Catalog) (artist : Artist) : list string :=
  match Js.own artistGenreMap (artist_id artist) with
  | Some labels => labels
  | None => []
  end.

(** The comparator [(a, b) => size(b) - size(a)]. *)
Definition descending {A : Type} (size : A -> nat) (a b : A) : Z :=
  Z.of_nat (size b) - Z.of_nat (size a).

(** The number an array-index key stands for ([0] for any other key). *)
Definition indexValue (k : string) : N :=
  match Js.arrayIndex k with
  | Some n => n
  | None => 0%N
  end.

(** A string without the given character. *)
Fixpoint lacks (c : ascii) (s : string) : bool :=
  match s with
  | EmptyString => true
  | String x rest => (negb (Ascii.eqb x c) && lacks c rest)%bool
  end.

(** Every character of the string passes the test. *)
Fixpoint allChars (test : ascii -> bool) (s : string) : bool :=
  match s with
  | EmptyString => true
  | String c rest => (test c && allChars test rest)%bool
  end.

Definition isDigitChar (c : ascii) : bool :=
  let n := N_of_ascii c in (N.leb 48 n && N.leb n 57)%bool.

(** A letter or a digit. *)
Definition isAlphanumeric (c : ascii) : bool :=
  (JsString.isUpper c || JsString.isLower c || isDigitChar c)%bool.

(** A character of the base64url alphabet: a letter, a digit, [-] or [_]. *)
Definition isUrlSafe (c : ascii) : bool :=
  (isAlphanumeric c || Ascii.eqb c "-" || Ascii.eqb c "_")%bool.

(** The character that stands for a sextet once [+] and [/] are replaced. *)
Definition urlChar (sextet : N) : ascii :=
  let c := JsString.base64Char sextet in
  let c := if Ascii.eqb c "+" then "-"%char else c in
  if Ascii.eqb c "/" then "_"%char else c.

(** The base64url form of a string of bytes, without padding, by direct
    recursion. *)
Fixpoint base64url (s : string) : string :=
  match s with
  | EmptyString => EmptyString
  | String a EmptyString =>
      let x := N_of_ascii a in
      String (urlChar (x / 4)) (String (urlChar ((x mod 4) * 16)) EmptyString)
  | String a (String b EmptyString) =>
      let x := N_of_ascii a in
      let y := N_of_ascii b in
      String (urlChar (x / 4))
        (String (urlChar ((x mod 4) * 16 + y / 16))
           (String (urlChar ((y mod 16) * 4)) EmptyString))
  | String a (String b (String c rest)) =>
      let x := N_of_ascii a in
      let y := N_of_ascii b in
      let z := N_of_ascii c in
      String (urlChar (x / 4))
        (String (urlChar ((x mod 4) * 16 + y / 16))
           (String (urlChar ((y mod 16) * 4 + z / 64))
              (String (urlChar (z mod 64)) (base64url rest))))
  end.

(** The numbers a sextet can be. *)
Definition sextets : list N := map N.of_nat (seq 0 64).

(** The two character replacements of [generateCodeChallenge]. *)
Definition replaced (s : string) : string :=
  JsString.replaceAll "/" "_" (JsString.replaceAll "+" "-" s).

(** The number written by a decimal numeral read from the left, after the
    number [acc]. *)
Fixpoint horner (d : Decimal.uint) (acc : N) : N :=
  match d with
  | Decimal.Nil => acc
  | Decimal.D0 l => horner l (acc * 10)
  | Decimal.D1 l => horner l (acc * 10 + 1)
  | Decimal.D2 l => horner l (acc * 10 + 2)
  | Decimal.D3 l => horner l (acc * 10 + 3)
  | Decimal.D4 l => horner l (acc * 10 + 4)
  | Decimal.D5 l => horner l (acc * 10 + 5)
  | Decimal.D6 l => horner l (acc * 10 + 6)
  | Decimal.D7 l => horner l (acc * 10 + 7)
  | Decimal.D8 l => horner l (acc * 10 + 8)
  | Decimal.D9 l => horner l (acc * 10 + 9)
  end%N.

(** The request [fetchArtistGenres] hands to [fetch]. *)
Definition artistsRequest (token : string) (artistIds : list string) : Request :=
  {| url := BACKEND_URL ++ "/api/artists";
     method := "POST";
     authorization := "Bearer " ++ token;
     contentType := "application/json";
     artist_ids := artistIds |}.

(** [response.ok]: the status is in the range 200 to 299. *)
Definition responseOk (response : Response) : bool :=
  ((200 <=? status response)%Z && (status response <=? 299)%Z)%bool.

(** The catalog lookup fails, in the wide sense: the backend cannot be
    reached, or it answers with an error response, or the body of its answer
    does not parse. *)
Definition lookupFails (fetch : Request -> Result Response)
           (json : Response -> Result Catalog)
           (token : string) (artistIds : list string) : Prop :=
  match fetch (artistsRequest token artistIds) with
  | Throw _ => True
  | Ok response =>
      responseOk response = false \/ exists e, json response = Throw e
  end.

(** ** Sample data *)

Module Samples.
Definition artist (n : string) : Artist := mkArtist n ("Artist " ++ n).

(** An enriched track. *)
Definition track (n : string) (labels : list string) : Track :=
  {| track_id := n; track_name := "Song " ++ n; artists := [artist "a1"];
     album_name := "Album"; popularity := 50; preview_url := None;
     added_at := "2024-01-01T00:00:00Z";
     genres := Some (map JString labels) |}.

(** A track as the saved-tracks collaborator delivers it: no [genres]. *)
Definition rawTrack (n : string) (artistIds : list string) : Track :=
  {| track_id := n; track_name := "Song " ++ n;
     artists := map artist artistIds;
     album_name := "Album"; popularity := 50; preview_url := None;
     added_at := "2024-01-01T00:00:00Z";
     genres := None |}.

(** A network that answers every request with the given catalog. *)
Definition answer : Request -> Result Response :=
  fun _ => Ok {| status := 200; body := "" |}.
Definition parsed (catalog : Catalog) : Response -> Result Catalog :=
  fun _ => Ok catalog.

(** A network that is down. *)
Definition unreachable : Request -> Result Response :=
  fun _ => Throw (Rejection "Failed to fetch").
(** A page environment: the clock, a token endpoint that answers every
    request with [answer], and a backend that shows the data or fails. *)
Definition page (now : Z) (answer : Result (option string)) (shows : bool) : Env :=
  {| clientId := "client";
     nowAtCheck := now;
     nowAtStore := now;
     draw := fun i => Z.of_nat (i mod 62);
     digest := fun s => s;
     tokenEndpoint := fun _ => answer;
     showUserData := fun _ => if shows then Ok tt
                              else Throw (TypeError "Failed to fetch") |}.

(** The page at its first load. *)
Definition firstLoad : World :=
  {| storage := []; location := None; historyReplaced := false;
     displayed := None |}.
(** A backend that answers every request with status 500 and the body
    [{}]. *)
Definition serverError : Request -> Result Response :=
  fun _ => Ok {| status := 500; body := "{}" |}.
End Samples.

(** ** Facts about objects *)

Module JsFacts.
Import Js.

Section Own.
Context {V : Type}.
Implicit Types (o : Obj V) (k : string) (v : V).

Lemma own_set_same o k v : own (set o k v) k = Some v.
Proof.
  induction o as [|[k' v'] rest IH]; simpl.
  - now rewrite String.eqb_refl.
  - destruct (String.eqb k' k) eqn:E; simpl; rewrite E; auto.
Qed.

Lemma own_set_other o k k' v : k <> k' -> own (set o k v) k' = own o k'.
Proof.
  intros Hne. induction o as [|[k0 v0] rest IH]; simpl.
  - destruct (String.eqb k k') eqn:E; auto.
    apply String.eqb_eq in E. contradiction.
  - destruct (String.eqb k0 k) eqn:E; simpl.
    + apply String.eqb_eq in E. subst k0.
      destruct (String.eqb k k') eqn:E'; auto.
      apply String.eqb_eq in E'. contradiction.
    + now rewrite IH.
Qed.

Lemma own_set o k k' v :
  own (set o k v) k' = if String.eqb k k' then Some v else own o k'.
Proof.
  destruct (String.eqb k k') eqn:E.
  - apply String.eqb_eq in E. subst. apply own_set_same.
  - apply String.eqb_neq in E. now apply own_set_other.
Qed.

Lemma own_None o k : own o k = None <-> ~ In k (map fst o).
Proof.
  induction o as [|[k' v'] rest IH]; simpl.
  - tauto.
  - destruct (String.eqb k' k) eqn:E.
    + apply String.eqb_eq in E. split; [discriminate | tauto].
    + apply String.eqb_neq in E. rewrite IH. tauto.
Qed.

Lemma own_Some_In o k v : own o k = Some v -> In k (map fst o).
Proof.
  intros H. destruct (in_dec string_dec k (map fst o)) as [|Hn]; auto.
  apply own_None in Hn. congruence.
Qed.

Lemma own_existsb o k :
  existsb (String.eqb k) (map fst o)
  = match own o k with Some _ => true | None => false end.
Proof.
  induction o as [|[k' v'] rest IH]; simpl; auto.
  rewrite (String.eqb_sym k k').
  destruct (String.eqb k' k); simpl; auto.
Qed.

Lemma set_set o k v v' : set (set o k v) k v' = set o k v'.
Proof.
  induction o as [|[k0 v0] rest IH]; simpl.
  - now rewrite String.eqb_refl.
  - destruct (String.eqb k0 k) eqn:E; simpl; rewrite E; auto.
    now rewrite IH.
Qed.

Lemma keys_set_new o k v :
  own o k = None -> map fst (set o k v) = map fst o ++ [k].
Proof.
  induction o as [|[k0 v0] rest IH]; simpl; auto.
  destruct (String.eqb k0 k); [discriminate|].
  intros H. simpl. now rewrite IH.
Qed.

Lemma keys_set_old o k v v0 :
  own o k = Some v0 -> map fst (set o k v) = map fst o.
Proof.
  induction o as [|[k1 v1] rest IH]; simpl; [discriminate|].
  destruct (String.eqb k1 k); simpl; auto.
  intros H. now rewrite IH.
Qed.

(** Creating the keys of a duplicate-free list one after the other, from
    the empty object, lays the properties out in that order. *)
Lemma build_by_set (f : string -> V) (ks : list string) o :
  NoDup (map fst o ++ ks) ->
  fold_left (fun acc k => set acc k (f k)) ks o
  = o ++ map (fun k => (k, f k)) ks.
Proof.
  revert o. induction ks as [|k ks IH]; intros o Hnd; simpl.
  - now rewrite app_nil_r.
  - assert (Hown : own o k = None).
    { apply own_None. apply NoDup_remove_2 in Hnd.
      intros Hin. apply Hnd. apply in_or_app. now left. }
    assert (Hset : set o k (f k) = o ++ [(k, f k)]).
    { clear - Hown. induction o as [|[k0 v0] rest IH]; simpl in *; auto.
      destruct (String.eqb k0 k); [discriminate|]. now rewrite IH. }
    rewrite Hset, IH.
    + now rewrite <- app_assoc.
    + rewrite map_app. simpl. rewrite <- app_assoc. exact Hnd.
Qed.
End Own.
End JsFacts.

(** ** Facts about key enumeration and sorting *)

Module JsOrder.
Import Js.

Lemma insertIndex_perm x l : Permutation (insertIndex x l) (x :: l).
Proof.
  induction l as [|y rest IH]; simpl; auto.
  destruct (N.leb (fst x) (fst y)); auto.
  rewrite IH. apply perm_swap.
Qed.

Lemma indexKeys_perm ks :
  Permutation (map snd (indexKeys ks)) (filter isArrayIndex ks).
Proof.
  induction ks as [|k rest IH]; simpl; auto.
  unfold isArrayIndex at 1.
  destruct (arrayIndex k) as [n|]; auto.
  rewrite (Permutation_map snd (insertIndex_perm (n, k) (indexKeys rest))).
  simpl. now constructor.
Qed.

Lemma filter_split_perm {A : Type} (f : A -> bool) (l : list A) :
  Permutation (filter f l ++ filter (fun x => negb (f x)) l) l.
Proof.
  induction l as [|x rest IH]; simpl; auto.
  destruct (f x); simpl.
  - now constructor.
  - symmetry. apply Permutation_cons_app. now symmetry.
Qed.

Lemma keys_perm {V : Type} (o : Obj V) : Permutation (keys o) (map fst o).
Proof.
  unfold keys.
  rewrite indexKeys_perm. apply filter_split_perm.
Qed.

Lemma indexKeys_none ks :
  Forall (fun k => isArrayIndex k = false) ks -> indexKeys ks = [].
Proof.
  induction 1 as [|k rest Hk _ IH]; simpl; auto.
  unfold isArrayIndex in Hk. destruct (arrayIndex k); [discriminate | exact IH].
Qed.

(** Without array-index keys, enumeration order is creation order. *)
Lemma keys_no_index {V : Type} (o : Obj V) :
  Forall (fun k => isArrayIndex k = false) (map fst o) ->
  keys o = map fst o.
Proof.
  intros H. unfold keys. rewrite (indexKeys_none _ H). simpl.
  induction (map fst o) as [|k rest IH]; simpl; auto.
  inversion H as [|? ? Hk Hrest]; subst. rewrite Hk. simpl.
  now rewrite IH.
Qed.

Lemma flat_map_agree {A B : Type} (f g : A -> list B) (l : list A) :
  (forall x, In x l -> f x = g x) -> flat_map f l = flat_map g l.
Proof.
  induction l as [|x rest IH]; simpl; auto.
  intros H. rewrite (H x), IH; auto.
Qed.

Lemma values_in_creation_order {V : Type} (o : Obj V) :
  NoDup (map fst o) ->
  flat_map (fun k => match own o k with Some v => [v] | None => [] end)
           (map fst o)
  = map snd o.
Proof.
  intros Hnd. induction o as [|[k v] rest IH]; simpl; auto.
  rewrite String.eqb_refl. simpl. f_equal.
  inversion Hnd as [|? ? Hnotin Hnd']; subst.
  rewrite <- (IH Hnd').
  apply flat_map_agree. intros k' Hin.
  destruct (String.eqb k k') eqn:E; auto.
  apply String.eqb_eq in E. subst. contradiction.
Qed.

Lemma flat_map_perm {A B : Type} (f : A -> list B) (l l' : list A) :
  Permutation l l' -> Permutation (flat_map f l) (flat_map f l').
Proof.
  induction 1; simpl; auto.
  - now apply Permutation_app_head.
  - rewrite !app_assoc. apply Permutation_app_tail, Permutation_app_comm.
  - etransitivity; eauto.
Qed.

(** [Object.values] lists every own value once. *)
Lemma values_perm {V : Type} (o : Obj V) :
  NoDup (map fst o) -> Permutation (values o) (map snd o).
Proof.
  intros Hnd. rewrite <- (values_in_creation_order o Hnd).
  unfold values. apply flat_map_perm, keys_perm.
Qed.

Section SortFacts.
Context {A : Type} (compare : A -> A -> Z).

Lemma sortInsert_perm x l : Permutation (sortInsert compare x l) (x :: l).
Proof.
  induction l as [|y rest IH]; simpl; auto.
  destruct (compare x y <=? 0)%Z; auto.
  rewrite IH. apply perm_swap.
Qed.

Lemma sort_perm l : Permutation (sort compare l) l.
Proof.
  induction l as [|x rest IH]; simpl; auto.
  rewrite sortInsert_perm. now constructor.
Qed.

Lemma sort_NoDup l : NoDup l -> NoDup (sort compare l).
Proof.
  intros H. eapply Permutation_NoDup; [symmetry; apply sort_perm | exact H].
Qed.

Lemma sort_In x l : In x (sort compare l) <-> In x l.
Proof.
  split; apply Permutation_in; [|symmetry]; apply sort_perm.
Qed.
End SortFacts.
End JsOrder.

(** ** The categorizer as a scan over (label, track) events *)

Module Scan.
Import Js JsFacts JsOrder.

Lemma pushInto_spec categorized k track :
  pushInto categorized k track
  = match own categorized k with
    | Some _ => Ok (appendTo categorized (k, track))
    | None =>
        if isPrototypeMember k then Throw pushError
        else Ok (appendTo categorized (k, track))
    end.
Proof.
  unfold pushInto, appendTo, bucketOf, get. simpl.
  destruct (own categorized k) as [bucket|] eqn:E; simpl.
  - now rewrite E.
  - destruct (isPrototypeMember k) eqn:P; simpl.
    + rewrite E. reflexivity.
    + rewrite own_set_same. now rewrite set_set.
Qed.

Lemma forEach_app {S A : Type} (body : S -> A -> Result S) xs ys s :
  forEach body (xs ++ ys) s = (s' <- forEach body xs s ;; forEach body ys s').
Proof.
  revert s. induction xs as [|x rest IH]; intros s; simpl; auto.
  destruct (body s x); simpl; auto.
Qed.

Lemma forEach_map {S A B : Type} (f : A -> B) (body : S -> B -> Result S) xs s :
  forEach (fun c x => body c (f x)) xs s = forEach body (map f xs) s.
Proof.
  revert s. induction xs as [|x rest IH]; intros s; simpl; auto.
  destruct (body s (f x)); simpl; auto.
Qed.

Lemma addTrack_keys categorized track :
  addTrack categorized track
  = forEach (fun c k => pushInto c k track) (trackKeys track) categorized.
Proof.
  unfold addTrack, trackKeys.
  destruct (genres track) as [[|g gs]|].
  - simpl. now destruct (pushInto categorized "Uncategorized" track).
  - apply (forEach_map toPropertyKey (fun c k => pushInto c k track)).
  - simpl. now destruct (pushInto categorized "Uncategorized" track).
Qed.

Lemma forEach_keys_events track ks categorized :
  forEach (fun c k => pushInto c k track) ks categorized
  = forEach (fun c e => pushInto c (fst e) (snd e))
            (map (fun k => (k, track)) ks) categorized.
Proof.
  revert categorized. induction ks as [|k ks IH]; intros c; simpl; auto.
  destruct (pushInto c k track); simpl; auto.
Qed.

(** The two nested loops are one loop over the events. *)
Lemma forEach_addTrack tracks categorized :
  forEach addTrack tracks categorized
  = forEach (fun c e => pushInto c (fst e) (snd e)) (events tracks) categorized.
Proof.
  revert categorized. induction tracks as [|t rest IH]; intros c; simpl; auto.
  unfold events. simpl. fold (events rest).
  rewrite forEach_app, <- forEach_keys_events, <- addTrack_keys.
  destruct (addTrack c t); simpl; auto.
Qed.

Lemma keys_appendTo categorized e :
  map fst (appendTo categorized e)
  = setAdd String.eqb (map fst categorized) (fst e).
Proof.
  unfold appendTo, setAdd. rewrite own_existsb.
  destruct (own categorized (fst e)) eqn:E.
  - eapply keys_set_old; eauto.
  - now apply keys_set_new.
Qed.

Lemma keys_build evs categorized :
  map fst (build evs categorized)
  = fold_left (setAdd String.eqb) (map fst evs) (map fst categorized).
Proof.
  revert categorized. induction evs as [|e evs IH]; intros c; simpl; auto.
  unfold build in *. simpl. now rewrite IH, keys_appendTo.
Qed.

Lemma bucketOf_appendTo categorized e k :
  bucketOf (appendTo categorized e) k
  = bucketOf categorized k ++ (if String.eqb (fst e) k then [snd e] else []).
Proof.
  unfold appendTo, bucketOf at 1. rewrite own_set.
  destruct (String.eqb (fst e) k) eqn:E.
  - apply String.eqb_eq in E. now subst.
  - now rewrite app_nil_r.
Qed.

Lemma bucketOf_build evs categorized k :
  bucketOf (build evs categorized) k
  = bucketOf categorized k
    ++ map snd (filter (fun e => String.eqb (fst e) k) evs).
Proof.
  revert categorized. induction evs as [|e evs IH]; intros c; simpl.
  - now rewrite app_nil_r.
  - unfold build in *. simpl. rewrite IH, bucketOf_appendTo, <- app_assoc.
    f_equal. destruct (String.eqb (fst e) k); auto.
Qed.
End Scan.

(** ** Facts about [Set]-based deduplication *)

Module SetFacts.
Import Js.

Section Dedup.
Context {A : Type} (eqb : A -> A -> bool).
Hypothesis eqb_eq : forall x y, eqb x y = true <-> x = y.

Lemma existsb_In x l : existsb (eqb x) l = true <-> In x l.
Proof.
  rewrite existsb_exists. split.
  - intros [y [Hin Heq]]. apply eqb_eq in Heq. now subst.
  - intros Hin. exists x. split; auto. now apply eqb_eq.
Qed.

Lemma existsb_notIn x l : existsb (eqb x) l = false <-> ~ In x l.
Proof.
  rewrite <- existsb_In. destruct (existsb (eqb x) l); split; intros; congruence.
Qed.

Lemma setAdd_In seen x y : In y (setAdd eqb seen x) <-> In y seen \/ y = x.
Proof.
  unfold setAdd. destruct (existsb (eqb x) seen) eqn:E.
  - apply existsb_In in E. split; [tauto|]. intros [H|H]; subst; auto.
  - rewrite in_app_iff. simpl. intuition congruence.
Qed.

Lemma setAdd_NoDup seen x : NoDup seen -> NoDup (setAdd eqb seen x).
Proof.
  intros Hnd. unfold setAdd. destruct (existsb (eqb x) seen) eqn:E; auto.
  apply existsb_notIn in E.
  apply NoDup_app; auto.
  - constructor; [tauto | constructor].
  - intros y Hy [Hx|[]]. subst. contradiction.
Qed.

Lemma fold_setAdd_NoDup xs seen :
  NoDup seen -> NoDup (fold_left (setAdd eqb) xs seen).
Proof.
  revert seen. induction xs as [|x rest IH]; intros seen Hnd; simpl; auto.
  apply IH. now apply setAdd_NoDup.
Qed.

Lemma fold_setAdd_In xs seen y :
  In y (fold_left (setAdd eqb) xs seen) <-> In y seen \/ In y xs.
Proof.
  revert seen. induction xs as [|x rest IH]; intros seen; simpl.
  - tauto.
  - rewrite IH, setAdd_In. intuition congruence.
Qed.

Lemma filter_filter (f g : A -> bool) l :
  filter f (filter g l) = filter (fun y => g y && f y) l.
Proof.
  induction l as [|y rest IH]; simpl; auto.
  destruct (g y); simpl; [destruct (f y)|]; now rewrite IH.
Qed.

(** The [Set] keeps first occurrences, in order. *)
Lemma fold_setAdd_firstSeen xs seen :
  fold_left (setAdd eqb) xs seen
  = seen ++ filter (fun y => negb (existsb (eqb y) seen)) (firstSeen eqb xs).
Proof.
  revert seen. induction xs as [|x rest IH]; intros seen; simpl.
  - now rewrite app_nil_r.
  - rewrite IH. unfold setAdd.
    destruct (existsb (eqb x) seen) eqn:E; simpl.
    + f_equal. rewrite filter_filter. apply filter_ext_in. intros y _.
      destruct (eqb x y) eqn:Exy; simpl; auto.
      apply eqb_eq in Exy. subst y. now rewrite E.
    + rewrite <- app_assoc. simpl. do 2 f_equal.
      rewrite filter_filter. apply filter_ext_in. intros y _.
      rewrite existsb_app. simpl. rewrite orb_false_r.
      destruct (eqb x y) eqn:Exy, (eqb y x) eqn:Eyx; simpl;
        try (now destruct (existsb (eqb y) seen)).
      * apply eqb_eq in Exy. subst y.
        assert (eqb x x = true) by now apply eqb_eq. congruence.
      * apply eqb_eq in Eyx. subst y.
        assert (eqb x x = true) by now apply eqb_eq. congruence.
Qed.

Lemma spreadSet_firstSeen xs : spreadSet eqb xs = firstSeen eqb xs.
Proof.
  unfold spreadSet. rewrite fold_setAdd_firstSeen. simpl.
  induction (firstSeen eqb xs) as [|y rest IH]; simpl; auto. now f_equal.
Qed.

Lemma firstSeen_In_iff y xs : In y (firstSeen eqb xs) <-> In y xs.
Proof.
rewrite <- spreadSet_firstSeen. unfold spreadSet.
rewrite fold_setAdd_In. simpl. tauto.
Qed.

Lemma spreadSet_NoDup xs : NoDup (spreadSet eqb xs).
Proof. apply fold_setAdd_NoDup. constructor. Qed.

Lemma spreadSet_In xs y : In y (spreadSet eqb xs) <-> In y xs.
Proof. unfold spreadSet. rewrite fold_setAdd_In. simpl. tauto. Qed.
End Dedup.

Lemma JsValue_eqb_eq a b : JsValue_eqb a b = true <-> a = b.
Proof.
  destruct a, b; simpl; rewrite ?String.eqb_eq;
    split; intros H; try discriminate; congruence.
Qed.
End SetFacts.

(** ** What [categorizeTracksByGenre] computes *)

Module Categorizer.
Import Js JsFacts JsOrder Scan SetFacts.

Lemma scan_result evs categorized :
  Forall safeKey (map fst categorized) ->
  forEach (fun c e => pushInto c (fst e) (snd e)) evs categorized
  = if allSafe evs then Ok (build evs categorized) else Throw pushError.
Proof.
  revert categorized. induction evs as [|e evs IH]; intros c Hsafe; simpl; auto.
  rewrite pushInto_spec. rewrite <- (surjective_pairing e).
  assert (Hkeep : safeKey (fst e) -> Forall safeKey (map fst (appendTo c e))).
  { intros Hk. rewrite keys_appendTo. apply Forall_forall. intros k Hin.
    apply (setAdd_In String.eqb String.eqb_eq) in Hin.
    destruct Hin as [Hin| ->]; auto.
    rewrite Forall_forall in Hsafe. auto. }
  destruct (own c (fst e)) as [bucket|] eqn:E.
  - assert (Hk : safeKey (fst e)).
    { rewrite Forall_forall in Hsafe. apply Hsafe. eapply own_Some_In; eauto. }
    unfold safeKey in Hk. rewrite Hk. simpl. rewrite (IH _ (Hkeep Hk)).
    reflexivity.
  - destruct (isPrototypeMember (fst e)) eqn:P; simpl; auto.
Qed.

Lemma categorize_spec tracks :
  categorizeTracksByGenre tracks
  = if allSafe (events tracks)
    then Ok (finish (build (events tracks) []))
    else Throw pushError.
Proof.
  unfold categorizeTracksByGenre. rewrite forEach_addTrack, scan_result.
  - destruct (allSafe (events tracks)); reflexivity.
  - constructor.
Qed.

Lemma build_NoDup evs : NoDup (map fst (build evs [])).
Proof.
  rewrite keys_build. apply (fold_setAdd_NoDup String.eqb String.eqb_eq).
  constructor.
Qed.

Lemma keys_NoDup {V : Type} (o : Obj V) : NoDup (map fst o) -> NoDup (keys o).
Proof.
  intros H. eapply Permutation_NoDup; [symmetry; apply keys_perm | exact H].
Qed.

Lemma finish_pairs categorized :
  NoDup (map fst categorized) ->
  finish categorized
  = map (fun k => (k, bucketOf categorized k))
        (sort (bySizeDescending categorized) (keys categorized)).
Proof.
  intros Hnd. unfold finish.
  rewrite (build_by_set (bucketOf categorized)); auto.
  simpl. now apply sort_NoDup, keys_NoDup.
Qed.

Lemma own_pairs {V : Type} (f : string -> V) ks k :
  own (map (fun k => (k, f k)) ks) k
  = if in_dec string_dec k ks then Some (f k) else None.
Proof.
  induction ks as [|k0 rest IH]; simpl; auto.
  destruct (String.eqb k0 k) eqn:E.
  - apply String.eqb_eq in E. subst.
    destruct (string_dec k k); [reflexivity | contradiction].
  - apply String.eqb_neq in E. rewrite IH.
    destruct (string_dec k0 k); [contradiction|].
    destruct (in_dec string_dec k rest); reflexivity.
Qed.

Lemma keys_finish categorized :
  NoDup (map fst categorized) ->
  map fst (finish categorized)
  = sort (bySizeDescending categorized) (keys categorized).
Proof.
  intros Hnd. rewrite finish_pairs by assumption.
  rewrite map_map. simpl. apply map_id.
Qed.

Lemma own_finish categorized k :
  NoDup (map fst categorized) ->
  own (finish categorized) k = own categorized k.
Proof.
  intros Hnd. rewrite finish_pairs by assumption. rewrite own_pairs.
  destruct (in_dec string_dec k _) as [Hin|Hnin].
  - apply sort_In in Hin.
    apply (Permutation_in _ (keys_perm categorized)) in Hin.
    unfold bucketOf. destruct (own categorized k) eqn:E; auto.
    apply own_None in E. contradiction.
  - symmetry. apply own_None. intros Hin. apply Hnin.
    apply sort_In.
    apply (Permutation_in _ (Permutation_sym (keys_perm categorized))).
    exact Hin.
Qed.

Lemma bucketOf_finish categorized k :
  NoDup (map fst categorized) ->
  bucketOf (finish categorized) k = bucketOf categorized k.
Proof.
  intros Hnd. unfold bucketOf. now rewrite own_finish.
Qed.

(** A returned result is the rebuilt store of a scan without unsafe keys. *)
Lemma categorize_Ok tracks result :
  categorizeTracksByGenre tracks = Ok result ->
  allSafe (events tracks) = true
  /\ result = finish (build (events tracks) []).
Proof.
  rewrite categorize_spec.
  destruct (allSafe (events tracks)); intros H; inversion H; auto.
Qed.

(** The bucket of a label, as a function of the input list. *)
Lemma bucket_events tracks k :
  map snd (filter (fun e => String.eqb (fst e) k) (events tracks))
  = flat_map (fun track => repeat track (count_occ string_dec (trackKeys track) k))
             tracks.
Proof.
  induction tracks as [|t rest IH]; simpl; auto.
  unfold events in *. simpl. rewrite filter_app, map_app, IH. f_equal.
  induction (trackKeys t) as [|k0 ks IHk]; simpl; auto.
  destruct (String.eqb k0 k) eqn:E.
  - apply String.eqb_eq in E. subst.
    destruct (string_dec k k); [|contradiction]. simpl. now f_equal.
  - apply String.eqb_neq in E.
    destruct (string_dec k0 k); [contradiction | exact IHk].
Qed.

Lemma bucketOf_result tracks result k :
  categorizeTracksByGenre tracks = Ok result ->
  bucketOf result k
  = flat_map (fun track => repeat track (count_occ string_dec (trackKeys track) k))
             tracks.
Proof.
  intros H. apply categorize_Ok in H. destruct H as [_ ->].
  rewrite bucketOf_finish by apply build_NoDup.
  rewrite bucketOf_build. simpl. apply bucket_events.
Qed.

Lemma own_build_None evs k :
  own (build evs []) k = None <-> ~ In k (map fst evs).
Proof.
  rewrite own_None, keys_build.
  rewrite (fold_setAdd_In String.eqb String.eqb_eq). simpl. tauto.
Qed.

Lemma own_build_bucket evs k bucket :
  own (build evs []) k = Some bucket -> bucket = bucketOf (build evs []) k.
Proof. unfold bucketOf. now intros ->. Qed.
End Categorizer.

(** ** Bucket sizes *)

Module Totals.
Import Js JsFacts JsOrder Scan SetFacts Categorizer.

Lemma bucketOf_cons_other k0 (v0 : list Track) rest k :
  String.eqb k0 k = false -> bucketOf ((k0, v0) :: rest) k = bucketOf rest k.
Proof. intros E. unfold bucketOf. simpl. now rewrite E. Qed.

Lemma stored_appendTo categorized e :
  stored (appendTo categorized e) = S (stored categorized).
Proof.
  unfold appendTo. destruct e as [k t]. simpl.
  induction categorized as [|[k0 v0] rest IH]; simpl; auto.
  destruct (String.eqb k0 k) eqn:E.
  - unfold bucketOf, stored. simpl. rewrite E. simpl.
    rewrite length_app. simpl. lia.
  - rewrite (bucketOf_cons_other _ _ _ _ E).
    unfold stored in *. simpl. rewrite IH. lia.
Qed.

Lemma stored_build evs categorized :
  stored (build evs categorized) = stored categorized + List.length evs.
Proof.
  revert categorized. induction evs as [|e evs IH]; intros c; simpl.
  - lia.
  - unfold build in *. simpl. rewrite IH, stored_appendTo. lia.
Qed.

Lemma length_trackKeys track :
  List.length (trackKeys track) = Nat.max 1 (genreCount track).
Proof.
  unfold trackKeys, genreCount.
  destruct (genres track) as [[|g gs]|]; simpl; auto.
  now rewrite length_map.
Qed.

Lemma length_events tracks :
  List.length (events tracks)
  = list_sum (map (fun track => Nat.max 1 (genreCount track)) tracks).
Proof.
  induction tracks as [|t rest IH]; simpl; auto.
  unfold events in *. simpl.
  rewrite length_app, length_map, IH, length_trackKeys. reflexivity.
Qed.

Lemma reduce_lengths {A : Type} (l : list (list A)) (acc : nat) :
  fold_left (fun sum tracks => sum + List.length tracks) l acc
  = acc + list_sum (map (@List.length A) l).
Proof.
  revert acc. induction l as [|x rest IH]; intros acc; simpl.
  - lia.
  - rewrite IH. lia.
Qed.

Lemma list_sum_perm l l' : Permutation l l' -> list_sum l = list_sum l'.
Proof. induction 1; simpl; lia. Qed.

Lemma buckets_in_creation_order (categorized : Categorized) :
  NoDup (map fst categorized) ->
  map (bucketOf categorized) (map fst categorized) = map snd categorized.
Proof.
  intros Hnd. induction categorized as [|[k v] rest IH]; simpl; auto.
  inversion Hnd as [|? ? Hnotin Hnd']; subst.
  unfold bucketOf at 1. simpl. rewrite String.eqb_refl. f_equal.
  rewrite <- (IH Hnd'). apply map_ext_in. intros k' Hin.
  apply bucketOf_cons_other. apply String.eqb_neq. intros ->. contradiction.
Qed.

(** The result holds the buckets of the store, each once. *)
Lemma values_finish categorized :
  NoDup (map fst categorized) ->
  Permutation (values (finish categorized)) (map snd categorized).
Proof.
  intros Hnd.
  assert (Hnd' : NoDup (map fst (finish categorized))).
  { rewrite keys_finish by assumption. now apply sort_NoDup, keys_NoDup. }
  rewrite (values_perm _ Hnd').
  rewrite finish_pairs by assumption. rewrite map_map. simpl.
  rewrite <- (buckets_in_creation_order _ Hnd).
  apply Permutation_map. rewrite sort_perm. apply keys_perm.
Qed.

Lemma totalTracks_finish categorized :
  NoDup (map fst categorized) ->
  totalTracks (finish categorized) = stored categorized.
Proof.
  intros Hnd. unfold totalTracks. rewrite reduce_lengths. simpl.
  rewrite (list_sum_perm _ _ (Permutation_map _ (values_finish _ Hnd))).
  unfold stored. now rewrite map_map.
Qed.

(** Whenever the categorizer returns, the buckets hold one entry per
    (track, genre) pair and one per track without genres. *)
Lemma totalTracks_result tracks result :
  categorizeTracksByGenre tracks = Ok result ->
  totalTracks result
  = list_sum (map (fun track => Nat.max 1 (genreCount track)) tracks).
Proof.
  intros H. apply categorize_Ok in H. destruct H as [_ ->].
  rewrite totalTracks_finish by apply build_NoDup.
  rewrite stored_build, length_events. reflexivity.
Qed.
End Totals.

(** ** Which tracks sit in which bucket *)

Module Membership.
Import Js JsFacts JsOrder Scan SetFacts Categorizer.

Lemma trackKeys_nonempty track : trackKeys track <> [].
Proof.
unfold trackKeys. destruct (genres track) as [[|g gs]|]; discriminate.
Qed.

Lemma In_events k track tracks :
In (k, track) (events tracks) <-> In track tracks /\ In k (trackKeys track).
Proof.
unfold events. rewrite in_flat_map. split.
- intros [t [Hin Hk]]. apply in_map_iff in Hk.
  destruct Hk as [k' [Heq Hk']]. inversion Heq; subst. auto.
- intros [Hin Hk]. exists track. split; auto.
  apply in_map_iff. exists k. auto.
Qed.

Lemma In_event_keys k tracks :
In k (map fst (events tracks))
<-> exists track, In track tracks /\ In k (trackKeys track).
Proof.
rewrite in_map_iff. split.
- intros [[k' t] [Heq Hin]]. simpl in Heq. subst k'.
  apply In_events in Hin. eauto.
- intros [t Ht]. exists (k, t). split; auto. now apply In_events.
Qed.

Lemma allSafe_iff tracks :
allSafe (events tracks) = true
<-> forall track k, In track tracks -> In k (trackKeys track) -> safeKey k.
Proof.
unfold allSafe. rewrite forallb_forall. split.
- intros H t k Ht Hk. specialize (H (k, t)). simpl in H.
  unfold safeKey. apply negb_true_iff, H. now apply In_events.
- intros H [k t] Hin. apply In_events in Hin. simpl.
  apply negb_true_iff. eapply H; apply Hin.
Qed.

Lemma In_repeat {A : Type} (x y : A) n : In x (repeat y n) <-> x = y /\ 0 < n.
Proof.
induction n as [|n IH]; simpl.
- split; [tauto | lia].
- rewrite IH. split.
  + intros [H|[H _]]; subst; split; auto; lia.
  + intros [-> _]. now left.
Qed.

(** A track sits in the bucket of [k] exactly when it is an input track
    filed under [k]. *)
Lemma In_bucket tracks result k track :
categorizeTracksByGenre tracks = Ok result ->
(In track (bucketOf result k) <-> In track tracks /\ In k (trackKeys track)).
Proof.
intros H. rewrite (bucketOf_result _ _ k H), in_flat_map. split.
- intros [t [Hin Hrep]]. apply In_repeat in Hrep. destruct Hrep as [-> Hpos].
  split; auto. now apply (count_occ_In string_dec).
- intros [Hin Hk]. exists track. split; auto.
  apply In_repeat. split; auto. now apply (count_occ_In string_dec).
Qed.

(** A label is a key of the result exactly when some input track is filed
    under it. *)
Lemma own_result_None tracks result k :
categorizeTracksByGenre tracks = Ok result ->
(own result k = None
 <-> ~ exists track, In track tracks /\ In k (trackKeys track)).
Proof.
intros H. apply categorize_Ok in H. destruct H as [_ ->].
rewrite own_finish by apply build_NoDup.
now rewrite own_build_None, In_event_keys.
Qed.

Lemma own_result_bucket tracks result k bucket :
categorizeTracksByGenre tracks = Ok result ->
own result k = Some bucket -> bucket = bucketOf result k.
Proof. intros _ H. unfold bucketOf. now rewrite H. Qed.

Lemma result_NoDup tracks result :
categorizeTracksByGenre tracks = Ok result -> NoDup (map fst result).
Proof.
intros H. apply categorize_Ok in H. destruct H as [_ ->].
rewrite keys_finish by apply build_NoDup.
apply sort_NoDup, keys_NoDup, build_NoDup.
Qed.

Lemma In_snd_own {V : Type} (o : Obj V) (v : V) :
NoDup (map fst o) ->
(In v (map snd o) <-> exists k, own o k = Some v).
Proof.
intros Hnd. induction o as [|[k0 v0] rest IH]; simpl.
- split; [tauto | intros [k Hk]; discriminate].
- inversion Hnd as [|? ? Hnotin Hnd']; subst. rewrite (IH Hnd'). split.
  + intros [->|[k Hk]].
    * exists k0. now rewrite String.eqb_refl.
    * exists k. destruct (String.eqb k0 k) eqn:E; auto.
      apply String.eqb_eq in E. subst. apply own_Some_In in Hk. contradiction.
  + intros [k Hk]. destruct (String.eqb k0 k); [left; congruence | right; eauto].
Qed.

(** The flat list holds the tracks of the buckets, and nothing else. *)
Lemma In_flatten (result : Categorized) track :
NoDup (map fst result) ->
(In track (flatten result) <-> exists k, In track (bucketOf result k)).
Proof.
intros Hnd. unfold flatten. rewrite in_concat. split.
- intros [bucket [Hb Hin]].
  apply (Permutation_in _ (values_perm result Hnd)) in Hb.
  apply (In_snd_own _ _ Hnd) in Hb. destruct Hb as [k Hk].
  exists k. unfold bucketOf. now rewrite Hk.
- intros [k Hin]. unfold bucketOf in Hin.
  destruct (own result k) as [bucket|] eqn:E; [|contradiction].
  exists bucket. split; auto.
  apply (Permutation_in _ (Permutation_sym (values_perm result Hnd))).
  apply (In_snd_own _ _ Hnd). eauto.
Qed.

Lemma In_flatten_result tracks result track :
categorizeTracksByGenre tracks = Ok result ->
(In track (flatten result) <-> In track tracks).
Proof.
intros H. rewrite (In_flatten _ _ (result_NoDup _ _ H)). split.
- intros [k Hk]. now apply (In_bucket _ _ _ _ H) in Hk.
- intros Hin. destruct (trackKeys track) as [|k ks] eqn:E.
  + now apply trackKeys_nonempty in E.
  + exists k. apply (In_bucket _ _ _ _ H). split; auto.
    rewrite E. now left.
Qed.
End Membership.

(** ** The enricher *)

Module Enricher.
Import Js JsFacts SetFacts.

Lemma fetchArtistGenres_fetch_fails fetch json token artistIds e :
(forall request, fetch request = Throw e) ->
fetchArtistGenres fetch json token artistIds = Throw e.
Proof. intros H. unfold fetchArtistGenres. now rewrite H. Qed.

Lemma fetchArtistGenres_json_fails fetch json token artistIds e :
(forall request, exists response, fetch request = Ok response) ->
(forall response, json response = Throw e) ->
fetchArtistGenres fetch json token artistIds = Throw e.
Proof.
intros Hf Hj. unfold fetchArtistGenres.
destruct (Hf {| url := BACKEND_URL ++ "/api/artists"; method := "POST";
                authorization := "Bearer " ++ token;
                contentType := "application/json";
                artist_ids := artistIds |}) as [response ->].
simpl. apply Hj.
Qed.

Lemma enrich_Ok fetch json token tracks catalog :
fetchArtistGenres fetch json token (uniqueArtistIds tracks) = Ok catalog ->
enrichTracksWithGenres fetch json token tracks
= Ok (map (enrichTrack catalog) tracks).
Proof. intros H. unfold enrichTracksWithGenres. now rewrite H. Qed.

Lemma enrich_Throw fetch json token tracks e :
fetchArtistGenres fetch json token (uniqueArtistIds tracks) = Throw e ->
enrichTracksWithGenres fetch json token tracks = Throw e.
Proof. intros H. unfold enrichTracksWithGenres. now rewrite H. Qed.

(** A returned list of enriched tracks comes from one complete answer of
    the catalog, applied to every track. *)
Lemma enrich_Ok_inv fetch json token tracks enriched :
enrichTracksWithGenres fetch json token tracks = Ok enriched ->
exists catalog,
  fetchArtistGenres fetch json token (uniqueArtistIds tracks) = Ok catalog
  /\ enriched = map (enrichTrack catalog) tracks.
Proof.
unfold enrichTracksWithGenres.
destruct (fetchArtistGenres fetch json token (uniqueArtistIds tracks))
  as [catalog|e]; simpl; intros H; inversion H. eauto.
Qed.

Lemma categorizeTracks_Ok_inv fetch json token tracks result :
categorizeTracks fetch json token tracks = Ok result ->
exists catalog,
  fetchArtistGenres fetch json token (uniqueArtistIds tracks) = Ok catalog
  /\ categorizeTracksByGenre (map (enrichTrack catalog) tracks) = Ok result.
Proof.
unfold categorizeTracks.
destruct (enrichTracksWithGenres fetch json token tracks) as [enriched|e] eqn:E;
  simpl; intros H; [|discriminate].
apply enrich_Ok_inv in E. destruct E as [catalog [Hc ->]]. eauto.
Qed.

Lemma sameButGenres_enrichTrack catalog track :
sameButGenres track (enrichTrack catalog track).
Proof. unfold sameButGenres, enrichTrack, withGenres. simpl. tauto. Qed.

Lemma filter_map_JString x ys :
filter (fun v => negb (JsValue_eqb (JString x) v)) (map JString ys)
= map JString (filter (fun y => negb (String.eqb x y)) ys).
Proof.
induction ys as [|y ys IH]; [reflexivity|].
cbn [map filter].
change (JsValue_eqb (JString x) (JString y)) with (String.eqb x y).
destruct (String.eqb x y); cbn [negb map]; now rewrite IH.
Qed.

Lemma firstSeen_map_JString xs :
firstSeen JsValue_eqb (map JString xs) = map JString (firstSeen String.eqb xs).
Proof.
induction xs as [|x rest IH]; [reflexivity|].
cbn [map firstSeen]. now rewrite IH, filter_map_JString.
Qed.

Lemma map_flat_map_JString {A : Type} (f : A -> list string) (l : list A) :
flat_map (fun a => map JString (f a)) l = map JString (flat_map f l).
Proof.
induction l as [|a rest IH]; simpl; auto.
now rewrite map_app, IH.
Qed.

(** An artist whose identifier is an own key of the catalog, or is not the
    name of a member of [Object.prototype], contributes its labels. *)
Lemma contribution_labels catalog artist :
own catalog (artist_id artist) <> None \/ safeKey (artist_id artist) ->
contribution catalog artist = map JString (labelsOf catalog artist).
Proof.
unfold contribution, labelsOf, get, safeKey.
destruct (own catalog (artist_id artist)) as [labels|]; auto.
intros [H|H]; [congruence|]. now rewrite H.
Qed.

(** For such artists the genre list is the union of their labels, without
    duplicates, in order of first occurrence. *)
Lemma enrichTrack_first_seen_union catalog track :
Forall (fun artist =>
          own catalog (artist_id artist) <> None \/ safeKey (artist_id artist))
       (artists track) ->
genres (enrichTrack catalog track)
= Some (map JString
          (firstSeen String.eqb (flat_map (labelsOf catalog) (artists track)))).
Proof.
intros Hsafe. unfold enrichTrack. simpl. f_equal.
rewrite (spreadSet_firstSeen JsValue_eqb JsValue_eqb_eq).
rewrite <- firstSeen_map_JString, <- map_flat_map_JString. f_equal.
induction Hsafe as [|a rest Ha _ IH]; simpl; auto.
now rewrite IH, (contribution_labels _ _ Ha).
Qed.

Lemma firstSeen_NoDup xs : NoDup (firstSeen String.eqb xs).
Proof.
rewrite <- (spreadSet_firstSeen String.eqb String.eqb_eq).
apply (spreadSet_NoDup String.eqb String.eqb_eq).
Qed.

Lemma firstSeen_In xs x : In x (firstSeen String.eqb xs) <-> In x xs.
Proof.
rewrite <- (spreadSet_firstSeen String.eqb String.eqb_eq).
apply (spreadSet_In String.eqb String.eqb_eq).
Qed.
Lemma fetchArtistGenres_batch fetch json token artistIds :
fetchArtistGenres fetch json token artistIds
= (response <- fetch (artistsRequest token artistIds) ;; json response).
Proof. reflexivity. Qed.
End Enricher.

(** ** The order of the keys of the result *)

Module Ordering.
Import Js JsFacts JsOrder Scan SetFacts Categorizer Membership.

Section BySize.
Context {A : Type} (size : A -> nat).

Lemma sortInsert_sorted x l :
StronglySorted (fun a b => size b <= size a) l ->
StronglySorted (fun a b => size b <= size a) (sortInsert (descending size) x l).
Proof.
induction 1 as [|y rest Hs IH Hall]; simpl.
- repeat constructor.
- unfold descending at 1.
  destruct (Z.leb_spec (Z.of_nat (size y) - Z.of_nat (size x)) 0) as [Hle|Hgt].
  + constructor; [now constructor|].
    constructor; [lia|].
    eapply Forall_impl; [|exact Hall]. simpl. intros z Hz. lia.
  + constructor; auto.
    rewrite Forall_forall in *. intros z Hz.
    apply (Permutation_in _ (sortInsert_perm (descending size) x rest)) in Hz.
    destruct Hz as [<-|Hz]; [lia | auto].
Qed.

Lemma sort_sorted l :
StronglySorted (fun a b => size b <= size a) (sort (descending size) l).
Proof.
induction l as [|x rest IH]; simpl; [constructor | now apply sortInsert_sorted].
Qed.

(** Stability: the elements of one size keep their order. *)
Lemma sortInsert_stable n x l :
filter (fun a => Nat.eqb (size a) n) (sortInsert (descending size) x l)
= filter (fun a => Nat.eqb (size a) n) (x :: l).
Proof.
induction l as [|y rest IH]; simpl; auto.
unfold descending at 1.
destruct (Z.leb_spec (Z.of_nat (size y) - Z.of_nat (size x)) 0) as [Hle|Hgt];
  simpl; auto.
simpl in IH. rewrite IH.
destruct (Nat.eqb_spec (size x) n), (Nat.eqb_spec (size y) n); auto. lia.
Qed.

Lemma sort_stable n l :
filter (fun a => Nat.eqb (size a) n) (sort (descending size) l)
= filter (fun a => Nat.eqb (size a) n) l.
Proof.
induction l as [|x rest IH]; simpl; auto.
rewrite sortInsert_stable. simpl. now rewrite IH.
Qed.
(** A list sorted by descending size is determined by its elements of each
    size, in their order: every stable sort returns the same list. *)
Lemma sorted_stable_unique l1 l2 :
StronglySorted (fun a b => size b <= size a) l1 ->
StronglySorted (fun a b => size b <= size a) l2 ->
(forall n, filter (fun a => Nat.eqb (size a) n) l1
           = filter (fun a => Nat.eqb (size a) n) l2) ->
l1 = l2.
Proof.
intros H1. revert l2. induction H1 as [|x r1 Hs1 IH Hall1]; intros l2 H2 Hf.
- destruct l2 as [|y r2]; auto.
  specialize (Hf (size y)). simpl in Hf. rewrite Nat.eqb_refl in Hf. discriminate.
- destruct l2 as [|y r2].
  + specialize (Hf (size x)). simpl in Hf. rewrite Nat.eqb_refl in Hf. discriminate.
  + inversion H2 as [|? ? Hs2 Hall2]; subst.
    assert (Hsize : size x = size y).
    { pose proof (Hf (size x)) as Hx. pose proof (Hf (size y)) as Hy.
      simpl in Hx, Hy. rewrite Nat.eqb_refl in Hx, Hy.
      destruct (Nat.eqb_spec (size y) (size x)) as [|Hne]; auto.
      destruct (Nat.eqb_spec (size x) (size y)) as [|_]; auto.
      assert (Hin2 : In x r2).
      { eapply (proj1 (filter_In _ x r2)). rewrite <- Hx. now left. }
      assert (Hin1 : In y r1).
      { eapply (proj1 (filter_In _ y r1)). rewrite Hy. now left. }
      rewrite Forall_forall in Hall1, Hall2.
      specialize (Hall1 _ Hin1). specialize (Hall2 _ Hin2). lia. }
    assert (Hxy : x = y).
    { specialize (Hf (size x)). simpl in Hf.
      rewrite Nat.eqb_refl, <- Hsize, Nat.eqb_refl in Hf. congruence. }
    subst y. f_equal. apply IH; auto.
    intros n. specialize (Hf n). simpl in Hf.
    destruct (Nat.eqb (size x) n); congruence.
Qed.
End BySize.

Lemma creation_order tracks :
map fst (build (events tracks) [])
= firstSeen String.eqb (map fst (events tracks)).
Proof.
rewrite keys_build. apply (spreadSet_firstSeen String.eqb String.eqb_eq).
Qed.

(** When no label is an array index, the keys of the result are the labels
    in order of creation, stably sorted by descending bucket size. *)
Lemma keys_result tracks result :
categorizeTracksByGenre tracks = Ok result ->
(forall track k, In track tracks -> In k (trackKeys track) -> isArrayIndex k = false) ->
keys result
= sort (descending (fun k => List.length (bucketOf result k)))
       (firstSeen String.eqb (map fst (events tracks))).
Proof.
intros Hres Hidx.
destruct (categorize_Ok _ _ Hres) as [_ Hfin].
assert (Hnd := build_NoDup (events tracks)).
assert (Hplain : Forall (fun k => isArrayIndex k = false)
                        (map fst (build (events tracks) []))).
{ apply Forall_forall. intros k Hk. rewrite creation_order in Hk.
  apply (proj1 (firstSeen_In_iff String.eqb String.eqb_eq _ _)) in Hk.
  apply In_event_keys in Hk. destruct Hk as [t [Ht Hk]]. eauto. }
assert (Hcmp : forall a b,
           bySizeDescending (build (events tracks) []) a b
           = descending (fun k => List.length (bucketOf result k)) a b).
{ intros a b. unfold bySizeDescending, descending. subst result.
  now rewrite !bucketOf_finish. }
rewrite keys_no_index.
- subst result. rewrite keys_finish by assumption.
  rewrite (keys_no_index _ Hplain), creation_order.
  set (l := firstSeen String.eqb (map fst (events tracks))). clearbody l.
  induction l as [|x rest IH]; simpl; auto.
  rewrite IH. generalize (sort (descending
    (fun k => List.length (bucketOf (finish (build (events tracks) [])) k))) rest).
  intros sorted. induction sorted as [|y ys IHs]; simpl; auto.
  rewrite Hcmp, IHs. reflexivity.
- subst result. rewrite keys_finish by assumption.
  apply Forall_forall. intros k Hk. apply sort_In in Hk.
  rewrite (keys_no_index _ Hplain) in Hk.
  rewrite Forall_forall in Hplain. auto.
Qed.

(** Then the keys are listed by descending bucket size, and the labels of
    equal bucket size stand in the order in which they were created. *)
Lemma keys_result_sorted tracks result :
categorizeTracksByGenre tracks = Ok result ->
(forall track k, In track tracks -> In k (trackKeys track) -> isArrayIndex k = false) ->
StronglySorted
  (fun a b => List.length (bucketOf result b) <= List.length (bucketOf result a))
  (keys result)
/\ forall n,
     filter (fun k => Nat.eqb (List.length (bucketOf result k)) n) (keys result)
     = filter (fun k => Nat.eqb (List.length (bucketOf result k)) n)
              (firstSeen String.eqb (map fst (events tracks))).
Proof.
intros Hres Hidx. rewrite (keys_result _ _ Hres Hidx). split.
- apply (sort_sorted (fun k => List.length (bucketOf result k))).
- intros n. apply (sort_stable (fun k => List.length (bucketOf result k))).
Qed.
End Ordering.

(** ** The scenarios of the specification *)

Module Scenarios.
Import Samples.

(** One track, one artist, one genre. *)
Example scenario_A :
categorizeTracks answer (parsed [("a1", ["rock"])]) "token" [rawTrack "t1" ["a1"]]
= Ok [("rock", [withGenres (rawTrack "t1" ["a1"]) [JString "rock"]])].
Proof. reflexivity. Qed.

(** Two artists with one genre each: the track is in both buckets. *)
Example scenario_B :
let t1 := withGenres (rawTrack "t1" ["a1"; "a2"]) [JString "rock"; JString "pop"] in
categorizeTracks answer (parsed [("a1", ["rock"]); ("a2", ["pop"])]) "token"
                 [rawTrack "t1" ["a1"; "a2"]]
= Ok [("rock", [t1]); ("pop", [t1])].
Proof. reflexivity. Qed.

(** An artist the catalog does not know. *)
Example scenario_C :
categorizeTracks answer (parsed []) "token" [rawTrack "t1" ["a9"]]
= Ok [("Uncategorized", [withGenres (rawTrack "t1" ["a9"]) []])].
Proof. reflexivity. Qed.

(** Two tracks under "rock", one under "pop", whatever the input order. *)
Example scenario_D :
option_map Js.keys
  (match categorizeTracksByGenre
           [track "t1" ["pop"]; track "t2" ["rock"]; track "t3" ["rock"]]
   with Ok result => Some result | Throw _ => None end)
= Some ["rock"; "pop"].
Proof. reflexivity. Qed.

(** The catalog cannot be reached. *)
Example scenario_E :
categorizeTracks unreachable (parsed []) "token" [rawTrack "t1" ["a1"]]
= Throw (Rejection "Failed to fetch").
Proof. reflexivity. Qed.

(** The empty list gives the empty object. *)
Example empty_input : categorizeTracksByGenre [] = Ok [].
Proof. reflexivity. Qed.
End Scenarios.

(** ** The claims *)

Module Claims.
Import Js JsFacts JsOrder Scan SetFacts Categorizer Totals Membership Enricher Samples.

(** C1.  The claim is that for every list of enriched tracks the buckets
    returned by [categorizeTracksByGenre] hold, all together,
    [max(1, number of genres)] entries per track.  On the one-track list
    whose track carries the single genre ["constructor"] the sum should
    be 1, but the function returns nothing: [categorized["constructor"]]
    finds the inherited [Object.prototype.constructor], no bucket is
    created, and [push] throws a [TypeError]. *)
Theorem categorize_throws_on_inherited_label :
  list_sum (map (fun t => Nat.max 1 (genreCount t)) [track "t1" ["constructor"]]) = 1
  /\ categorizeTracksByGenre [track "t1" ["constructor"]] = Throw pushError.
Proof. split; reflexivity. Qed.

(** C2.  The claim is that the keys of the result of
    [categorizeTracksByGenre] are listed by descending bucket size.  With
    two tracks under ["rock"] and one under ["1990"], the result lists
    ["1990"] (one track) before ["rock"] (two tracks): an object
    enumerates its array-index keys first, whatever the order in which
    [sortedCategories] was filled. *)
Theorem categorize_lists_index_label_first :
  exists result,
    categorizeTracksByGenre
      [track "t1" ["rock"]; track "t2" ["rock"]; track "t3" ["1990"]]
    = Ok result
    /\ Js.keys result = ["1990"; "rock"]
    /\ List.length (bucketOf result "1990") = 1
    /\ List.length (bucketOf result "rock") = 2.
Proof. eexists. repeat split. Qed.

(** C3.  The claim is that an artist identifier absent from the catalog
    contributes nothing to a track's genre list.  For a track whose only
    artist has the identifier ["constructor"] and a catalog without any
    entry, the genre list should be empty, but [artistGenreMap["constructor"]]
    is the inherited [Object.prototype.constructor], a truthy value that is
    not an array: [flatMap] keeps it, and the track's genre list holds that
    one element. *)
Theorem enrich_keeps_inherited_member :
uniqueArtistIds [rawTrack "t1" ["constructor"]] = ["constructor"]
/\ own (V := list string) [] "constructor" = None
/\ enrichTracksWithGenres answer (parsed []) "token" [rawTrack "t1" ["constructor"]]
   = Ok [withGenres (rawTrack "t1" ["constructor"]) [JProtoMember "constructor"]].
Proof. repeat split. Qed.

(** C4, as it is stated, fails on an error response.  The backend answers
    the lookup with status 500 and the body [{}]: the lookup has failed, but
    [fetchArtistGenres] never reads the status, the body parses, and the run
    returns a result, with the track under ["Uncategorized"]. *)
Lemma error_response_gives_a_result :
lookupFails serverError (parsed []) "token"
            (uniqueArtistIds [rawTrack "t1" ["a1"]])
/\ fetchArtistGenres serverError (parsed []) "token"
                     (uniqueArtistIds [rawTrack "t1" ["a1"]])
   = Ok []
/\ categorizeTracks serverError (parsed []) "token" [rawTrack "t1" ["a1"]]
   = Ok [("Uncategorized", [withGenres (rawTrack "t1" ["a1"]) []])].
Proof. split; [left; reflexivity | split; reflexivity]. Qed.

(** C4, amended.  The run of enrichment followed by categorization fails
    with the lookup exactly when the lookup rejects: when [fetch] rejects,
    or when the body of the answer does not parse, enrichment and the run
    fail with that rejection and return nothing.  In every other case, with
    whatever status the answer carries, enrichment returns every track
    enriched from the one parsed answer and the run is the categorizer on
    that list, so that the tracks of a returned result are the input tracks
    enriched from that one answer: no result mixes a failed lookup with
    genre data. *)
Theorem run_fails_exactly_when_lookup_rejects fetch json token tracks :
match fetch (artistsRequest token (uniqueArtistIds tracks)) with
| Throw e =>
    enrichTracksWithGenres fetch json token tracks = Throw e
    /\ categorizeTracks fetch json token tracks = Throw e
| Ok response =>
    match json response with
    | Throw e =>
        enrichTracksWithGenres fetch json token tracks = Throw e
        /\ categorizeTracks fetch json token tracks = Throw e
    | Ok catalog =>
        enrichTracksWithGenres fetch json token tracks
        = Ok (map (enrichTrack catalog) tracks)
        /\ categorizeTracks fetch json token tracks
           = categorizeTracksByGenre (map (enrichTrack catalog) tracks)
        /\ forall result k track',
             categorizeTracks fetch json token tracks = Ok result ->
             In track' (bucketOf result k) ->
             exists track, In track tracks /\ track' = enrichTrack catalog track
    end
end.
Proof.
unfold categorizeTracks, enrichTracksWithGenres.
rewrite fetchArtistGenres_batch.
destruct (fetch (artistsRequest token (uniqueArtistIds tracks)))
  as [response|e]; cbn [bind]; [|split; reflexivity].
destruct (json response) as [catalog|e]; cbn [bind]; [|split; reflexivity].
split; [reflexivity|]. split; [reflexivity|].
intros result k t' Hres Hin.
apply (In_bucket _ _ _ _ Hres) in Hin. destruct Hin as [Hin _].
apply in_map_iff in Hin. destruct Hin as [t [<- Ht]]. eauto.
Qed.

Lemma run_fails_exactly_when_lookup_rejects_witness :
enrichTracksWithGenres serverError (parsed [("a1", ["rock"])]) "token"
                       [rawTrack "t1" ["a1"]; rawTrack "t2" ["a2"]]
= Ok (map (enrichTrack [("a1", ["rock"])])
          [rawTrack "t1" ["a1"]; rawTrack "t2" ["a2"]])
/\ categorizeTracks serverError (parsed [("a1", ["rock"])]) "token"
                    [rawTrack "t1" ["a1"]; rawTrack "t2" ["a2"]]
   = categorizeTracksByGenre
       (map (enrichTrack [("a1", ["rock"])])
            [rawTrack "t1" ["a1"]; rawTrack "t2" ["a2"]])
/\ forall result k track',
     categorizeTracks serverError (parsed [("a1", ["rock"])]) "token"
                      [rawTrack "t1" ["a1"]; rawTrack "t2" ["a2"]]
     = Ok result ->
     In track' (bucketOf result k) ->
     exists track,
       In track [rawTrack "t1" ["a1"]; rawTrack "t2" ["a2"]]
       /\ track' = enrichTrack [("a1", ["rock"])] track.
Proof.
exact (run_fails_exactly_when_lookup_rejects
         serverError (parsed [("a1", ["rock"])]) "token"
         [rawTrack "t1" ["a1"]; rawTrack "t2" ["a2"]]).
Defined.

(** C5.  The list returned by [enrichTracksWithGenres] has the tracks of the
    input, one by one at the same positions: each output track agrees with
    the input track at its position on every field but [genres], and its
    [genres] field is set. *)
Theorem enrich_changes_only_genres fetch json token tracks enriched :
enrichTracksWithGenres fetch json token tracks = Ok enriched ->
List.length enriched = List.length tracks
/\ Forall2 (fun track track' =>
              sameButGenres track track' /\ genres track' <> None)
           tracks enriched.
Proof.
intros H. apply enrich_Ok_inv in H. destruct H as [catalog [_ ->]].
split; [apply length_map|].
induction tracks as [|t rest IH]; simpl; constructor; auto.
split; [apply sameButGenres_enrichTrack | discriminate].
Qed.

Lemma enrich_changes_only_genres_witness :
let tracks := [rawTrack "t1" ["a1"; "a2"]; rawTrack "t2" ["a9"]] in
let catalog := [("a1", ["rock"]); ("a2", ["pop"; "rock"])] in
let enriched := [withGenres (rawTrack "t1" ["a1"; "a2"]) [JString "rock"; JString "pop"];
                 withGenres (rawTrack "t2" ["a9"]) []] in
enrichTracksWithGenres answer (parsed catalog) "token" tracks = Ok enriched
/\ List.length enriched = List.length tracks
/\ Forall2 (fun track track' =>
              sameButGenres track track' /\ genres track' <> None)
           tracks enriched.
Proof.
intros tracks catalog enriched.
assert (H : enrichTracksWithGenres answer (parsed catalog) "token" tracks
            = Ok enriched) by reflexivity.
split; [exact H|].
exact (enrich_changes_only_genres answer (parsed catalog) "token" tracks enriched H).
Defined.

Lemma repeat_count_filter (ks : list string) (k : string) (track : Track) :
NoDup ks ->
repeat track (count_occ string_dec ks k)
= if existsb (String.eqb k) ks then [track] else [].
Proof.
intros Hnd.
destruct (existsb (String.eqb k) ks) eqn:E.
- apply (existsb_In String.eqb String.eqb_eq) in E.
  apply (NoDup_count_occ' string_dec) in E; auto. now rewrite E.
- apply (existsb_notIn String.eqb String.eqb_eq) in E.
  apply (count_occ_not_In string_dec) in E. now rewrite E.
Qed.

(** C6.  In the result of [categorizeTracksByGenre], the bucket of a label
    is the input list in input order, each track repeated as often as it
    carries the label; when no track carries a label twice, the bucket is
    the input list filtered by "carries the label", so its tracks stand in
    the same relative order as in the input. *)
Theorem bucket_keeps_input_order tracks result k bucket :
categorizeTracksByGenre tracks = Ok result ->
own result k = Some bucket ->
bucket
= flat_map (fun track => repeat track (count_occ string_dec (trackKeys track) k))
           tracks
/\ (Forall (fun track => NoDup (trackKeys track)) tracks ->
    bucket = filter (fun track => existsb (String.eqb k) (trackKeys track)) tracks).
Proof.
intros Hres Hown.
rewrite (own_result_bucket _ _ _ _ Hres Hown), (bucketOf_result _ _ k Hres).
split; auto.
intros Hnd. clear Hres Hown. induction Hnd as [|t rest Ht _ IH]; simpl; auto.
rewrite IH, (repeat_count_filter _ _ _ Ht).
now destruct (existsb (String.eqb k) (trackKeys t)).
Qed.

Lemma bucket_keeps_input_order_witness :
let tracks := [track "t1" ["rock"]; track "t2" ["pop"]; track "t3" ["pop"; "rock"]] in
let result := [("rock", [track "t1" ["rock"]; track "t3" ["pop"; "rock"]]);
               ("pop", [track "t2" ["pop"]; track "t3" ["pop"; "rock"]])] in
let bucket := [track "t1" ["rock"]; track "t3" ["pop"; "rock"]] in
(categorizeTracksByGenre tracks = Ok result /\ own result "rock" = Some bucket)
/\ bucket
   = flat_map (fun t => repeat t (count_occ string_dec (trackKeys t) "rock")) tracks
/\ (Forall (fun t => NoDup (trackKeys t)) tracks ->
    bucket = filter (fun t => existsb (String.eqb "rock") (trackKeys t)) tracks).
Proof.
intros tracks result bucket.
assert (H1 : categorizeTracksByGenre tracks = Ok result) by reflexivity.
assert (H2 : own result "rock" = Some bucket) by reflexivity.
split; [split; assumption|].
exact (bucket_keeps_input_order tracks result "rock" bucket H1 H2).
Defined.

(** C7.  Two runs of enrichment followed by categorization over the same
    track list, in which the catalog lookup returned the same mapping, end
    alike: the same enriched list and the same outcome of the categorizer,
    hence the same keys in the same order and the same bucket under every
    key. *)
Theorem two_runs_agree fetch1 json1 token1 fetch2 json2 token2 tracks catalog :
fetchArtistGenres fetch1 json1 token1 (uniqueArtistIds tracks) = Ok catalog ->
fetchArtistGenres fetch2 json2 token2 (uniqueArtistIds tracks) = Ok catalog ->
enrichTracksWithGenres fetch1 json1 token1 tracks
= enrichTracksWithGenres fetch2 json2 token2 tracks
/\ categorizeTracks fetch1 json1 token1 tracks
   = categorizeTracks fetch2 json2 token2 tracks
/\ forall result1 result2,
     categorizeTracks fetch1 json1 token1 tracks = Ok result1 ->
     categorizeTracks fetch2 json2 token2 tracks = Ok result2 ->
     Js.keys result1 = Js.keys result2
     /\ forall k, own result1 k = own result2 k.
Proof.
intros H1 H2.
assert (He : enrichTracksWithGenres fetch1 json1 token1 tracks
             = enrichTracksWithGenres fetch2 json2 token2 tracks).
{ now rewrite (enrich_Ok _ _ _ _ _ H1), (enrich_Ok _ _ _ _ _ H2). }
assert (Hc : categorizeTracks fetch1 json1 token1 tracks
             = categorizeTracks fetch2 json2 token2 tracks).
{ unfold categorizeTracks. now rewrite He. }
repeat split; auto; rewrite Hc in H; rewrite H in H0; now inversion H0.
Qed.

Lemma two_runs_agree_witness :
let tracks := [rawTrack "t1" ["a1"; "a2"]; rawTrack "t2" ["a2"]] in
let catalog := [("a1", ["rock"]); ("a2", ["pop"])] in
let again : Request -> Result Response :=
  fun _ => Ok {| status := 304; body := "cached" |} in
(fetchArtistGenres answer (parsed catalog) "token" (uniqueArtistIds tracks) = Ok catalog
 /\ fetchArtistGenres again (parsed catalog) "renewed" (uniqueArtistIds tracks) = Ok catalog)
/\ enrichTracksWithGenres answer (parsed catalog) "token" tracks
   = enrichTracksWithGenres again (parsed catalog) "renewed" tracks
/\ categorizeTracks answer (parsed catalog) "token" tracks
   = categorizeTracks again (parsed catalog) "renewed" tracks
/\ forall result1 result2,
     categorizeTracks answer (parsed catalog) "token" tracks = Ok result1 ->
     categorizeTracks again (parsed catalog) "renewed" tracks = Ok result2 ->
     Js.keys result1 = Js.keys result2
     /\ forall k, own result1 k = own result2 k.
Proof.
intros tracks catalog again.
assert (H1 : fetchArtistGenres answer (parsed catalog) "token" (uniqueArtistIds tracks)
             = Ok catalog) by reflexivity.
assert (H2 : fetchArtistGenres again (parsed catalog) "renewed" (uniqueArtistIds tracks)
             = Ok catalog) by reflexivity.
split; [split; assumption|].
exact (two_runs_agree answer (parsed catalog) "token" again (parsed catalog) "renewed"
         tracks catalog H1 H2).
Defined.

(** C8.  Let [result] be what [categorizeTracksByGenre] returns on a track
    list, and [flat] a list of the tracks of all its buckets (the buckets one
    after the other, or their union without repetition, in any order).
    Categorizing [flat] returns again, and the second result has the same
    labels and, under every label, the same member tracks as the first. *)
Theorem recategorizing_keeps_membership tracks result flat :
categorizeTracksByGenre tracks = Ok result ->
(forall track, In track flat <-> In track (flatten result)) ->
exists result',
  categorizeTracksByGenre flat = Ok result'
  /\ (forall k, own result' k = None <-> own result k = None)
  /\ (forall k track, In track (bucketOf result' k) <-> In track (bucketOf result k)).
Proof.
intros Hres Hflat.
assert (Hsame : forall t, In t flat <-> In t tracks).
{ intros t. rewrite Hflat. now apply In_flatten_result. }
assert (Hsafe : allSafe (events flat) = true).
{ apply allSafe_iff. intros t k Ht Hk.
  destruct (categorize_Ok _ _ Hres) as [Hs _].
  rewrite allSafe_iff in Hs. apply (Hs t k); auto. now apply Hsame. }
destruct (categorizeTracksByGenre flat) as [result'|e] eqn:Hres'.
- exists result'. split; [reflexivity|]. split.
  + intros k.
    rewrite (own_result_None _ _ k Hres), (own_result_None _ _ k Hres').
    split; intros Hn [t [Ht Hk]]; apply Hn; exists t; split; auto;
      now apply Hsame.
  + intros k t.
    rewrite (In_bucket _ _ k t Hres), (In_bucket _ _ k t Hres'), Hsame. tauto.
- rewrite categorize_spec, Hsafe in Hres'. discriminate.
Qed.

Lemma recategorizing_keeps_membership_witness :
let t1 := track "t1" ["rock"; "pop"] in
let t2 := track "t2" ["pop"] in
let result := [("pop", [t1; t2]); ("rock", [t1])] in
(categorizeTracksByGenre [t1; t2] = Ok result
 /\ flatten result = [t1; t2; t1]
 /\ forall t, In t (flatten result) <-> In t (flatten result))
/\ exists result',
     categorizeTracksByGenre (flatten result) = Ok result'
     /\ (forall k, own result' k = None <-> own result k = None)
     /\ (forall k t, In t (bucketOf result' k) <-> In t (bucketOf result k)).
Proof.
intros t1 t2 result.
assert (H : categorizeTracksByGenre [t1; t2] = Ok result) by reflexivity.
assert (Hflat : forall t, In t (flatten result) <-> In t (flatten result))
  by (intros t; split; auto).
split; [repeat split; auto|].
exact (recategorizing_keeps_membership [t1; t2] result (flatten result) H Hflat).
Defined.

Lemma blank_safe g : blank g = true -> safeKey g.
Proof.
unfold safeKey. destruct g as [|c rest]; [reflexivity|].
simpl. intros H. apply andb_true_iff in H. destruct H as [Hc _].
unfold isPrototypeMember, objectPrototypeMembers. simpl.
repeat match goal with
       | |- context [Ascii.eqb c ?d] =>
           let E := fresh "E" in
           destruct (Ascii.eqb c d) eqn:E;
           [apply Ascii.eqb_eq in E; subst c; discriminate Hc|]
       end.
reflexivity.
Qed.

Lemma toPropertyKey_Uncategorized v :
toPropertyKey v = "Uncategorized" -> v = JString "Uncategorized".
Proof.
destruct v as [s|m]; simpl.
- now intros ->.
- destruct (String.eqb m "__proto__"); discriminate.
Qed.

(** C9.  A label that is empty or white space only is a bucket key like any
    other.  Filing a track under it never throws, whatever the store: the
    track is appended to the bucket keyed by that very string and every other
    property is left as it was.  In a returned result, a track whose genre
    list contains the label sits in the bucket of that exact key, sits in
    the buckets keyed by its own genres and in no other, and so is in
    ["Uncategorized"] only if that is one of its labels. *)
Theorem blank_label_is_a_bucket g tracks result track gs :
blank g = true ->
categorizeTracksByGenre tracks = Ok result ->
In track tracks ->
genres track = Some gs ->
In (JString g) gs ->
(forall categorized t,
    exists categorized',
      pushInto categorized g t = Ok categorized'
      /\ forall k, own categorized' k
                   = if String.eqb g k then Some (bucketOf categorized g ++ [t])
                     else own categorized k)
/\ (exists bucket, own result g = Some bucket /\ In track bucket)
/\ (forall k, In track (bucketOf result k) <-> In k (map toPropertyKey gs))
/\ (In track (bucketOf result "Uncategorized") -> In (JString "Uncategorized") gs).
Proof.
intros Hblank Hres Hin Hgs Hg.
assert (Hkeys : trackKeys track = map toPropertyKey gs).
{ unfold trackKeys. rewrite Hgs. destruct gs; [contradiction | reflexivity]. }
assert (Hmem : forall k, In track (bucketOf result k)
                         <-> In k (map toPropertyKey gs)).
{ intros k. rewrite (In_bucket _ _ _ _ Hres), Hkeys. tauto. }
split; [|split; [|split]]; auto.
- intros c t. exists (appendTo c (g, t)). split.
  + rewrite pushInto_spec. rewrite (blank_safe g Hblank).
    now destruct (own c g).
  + intros k. unfold appendTo. simpl. apply own_set.
- assert (Hb : In track (bucketOf result g)).
  { apply Hmem. apply in_map_iff. exists (JString g). auto. }
  unfold bucketOf in Hb. destruct (own result g) as [bucket|]; [|contradiction].
  eauto.
- intros Hun. apply Hmem in Hun. apply in_map_iff in Hun.
  destruct Hun as [v [Hkey Hv]].
  apply toPropertyKey_Uncategorized in Hkey. now subst v.
Qed.

Lemma blank_label_is_a_bucket_witness :
let t1 := track "t1" [" "; "rock"] in
let t2 := track "t2" [""] in
let result := [(" ", [t1]); ("rock", [t1]); ("", [t2])] in
(blank " " = true
 /\ categorizeTracksByGenre [t1; t2] = Ok result
 /\ In t1 [t1; t2]
 /\ genres t1 = Some [JString " "; JString "rock"]
 /\ In (JString " ") [JString " "; JString "rock"])
/\ (forall categorized t,
      exists categorized',
        pushInto categorized " " t = Ok categorized'
        /\ forall k, own categorized' k
                     = if String.eqb " " k then Some (bucketOf categorized " " ++ [t])
                       else own categorized k)
/\ (exists bucket, own result " " = Some bucket /\ In t1 bucket)
/\ (forall k, In t1 (bucketOf result k)
              <-> In k (map toPropertyKey [JString " "; JString "rock"]))
/\ (In t1 (bucketOf result "Uncategorized")
    -> In (JString "Uncategorized") [JString " "; JString "rock"]).
Proof.
intros t1 t2 result.
assert (H1 : blank " " = true) by reflexivity.
assert (H2 : categorizeTracksByGenre [t1; t2] = Ok result) by reflexivity.
assert (H3 : In t1 [t1; t2]) by (simpl; auto).
assert (H4 : genres t1 = Some [JString " "; JString "rock"]) by reflexivity.
assert (H5 : In (JString " ") [JString " "; JString "rock"]) by (simpl; auto).
split; [repeat split; assumption|].
exact (blank_label_is_a_bucket " " [t1; t2] result t1
         [JString " "; JString "rock"] H1 H2 H3 H4 H5).
Defined.

Lemma build_Uncategorized tracks bucket :
build (map (fun track => ("Uncategorized", track)) tracks)
      [("Uncategorized", bucket)]
= [("Uncategorized", bucket ++ tracks)].
Proof.
revert bucket. induction tracks as [|t rest IH]; intros bucket; simpl.
- now rewrite app_nil_r.
- unfold build in *. simpl. unfold appendTo at 2. simpl.
  unfold bucketOf. simpl. rewrite IH, <- app_assoc. reflexivity.
Qed.

Lemma unenriched_keys track : unenriched track -> trackKeys track = ["Uncategorized"].
Proof. unfold unenriched, trackKeys. now intros [-> | ->]. Qed.

Lemma unenriched_events tracks :
Forall unenriched tracks ->
events tracks = map (fun track => ("Uncategorized", track)) tracks.
Proof.
induction 1 as [|t rest Ht _ IH]; simpl; auto.
unfold events in *. simpl. rewrite IH, (unenriched_keys _ Ht). reflexivity.
Qed.

(** C10.  A track whose [genres] field is missing is handled exactly like
    one whose genre list is empty.  On any store the loop body files such a
    track under ["Uncategorized"] without throwing, and leaves every other
    property as it was; and on a list made of such tracks only the
    categorizer returns the single bucket ["Uncategorized"] holding the
    whole list, in order. *)
Theorem unenriched_goes_to_Uncategorized track tracks :
unenriched track ->
Forall unenriched tracks ->
(forall categorized,
    exists categorized',
      addTrack categorized track = Ok categorized'
      /\ forall k, own categorized' k
                   = if String.eqb "Uncategorized" k
                     then Some (bucketOf categorized "Uncategorized" ++ [track])
                     else own categorized k)
/\ categorizeTracksByGenre (track :: tracks)
   = Ok [("Uncategorized", track :: tracks)].
Proof.
intros Ht Hrest. split.
- intros c. exists (appendTo c ("Uncategorized", track)). split.
  + rewrite addTrack_keys, (unenriched_keys _ Ht). simpl.
    rewrite pushInto_spec. simpl. now destruct (own c "Uncategorized").
  + intros k. unfold appendTo. simpl. apply own_set.
- rewrite categorize_spec.
  rewrite (unenriched_events (track :: tracks)) by now constructor.
  assert (Hsafe : allSafe (map (fun t => ("Uncategorized", t)) (track :: tracks))
                  = true).
  { unfold allSafe. apply forallb_forall. intros e He.
    apply in_map_iff in He. destruct He as [t [<- _]]. reflexivity. }
  rewrite Hsafe. f_equal.
  change (build (map (fun t => ("Uncategorized", t)) (track :: tracks)) [])
    with (build (map (fun t => ("Uncategorized", t)) tracks)
                [("Uncategorized", [track])]).
  rewrite build_Uncategorized. reflexivity.
Qed.

Lemma unenriched_goes_to_Uncategorized_witness :
let t1 := rawTrack "t1" ["a1"] in
let t2 := track "t2" [] in
(unenriched t1 /\ Forall unenriched [t2])
/\ (forall categorized,
      exists categorized',
        addTrack categorized t1 = Ok categorized'
        /\ forall k, own categorized' k
                     = if String.eqb "Uncategorized" k
                       then Some (bucketOf categorized "Uncategorized" ++ [t1])
                       else own categorized k)
/\ categorizeTracksByGenre [t1; t2] = Ok [("Uncategorized", [t1; t2])].
Proof.
intros t1 t2.
assert (H1 : unenriched t1) by (left; reflexivity).
assert (H2 : Forall unenriched [t2]) by (repeat constructor; right; reflexivity).
split; [split; assumption|].
exact (unenriched_goes_to_Uncategorized t1 [t2] H1 H2).
Defined.

End Claims.

(** ** Further properties of the categorizer and of the enricher *)

Module CategorizerExtras.
Import Js JsFacts JsOrder Scan SetFacts Categorizer Totals Membership Enricher
       Ordering Samples.

Lemma sum_max_ge tracks :
List.length tracks <= list_sum (map (fun t => Nat.max 1 (genreCount t)) tracks).
Proof.
unfold list_sum.
induction tracks as [|t rest IH]; cbn [map List.length fold_right]; lia.
Qed.

Lemma sum_max_eq tracks :
list_sum (map (fun t => Nat.max 1 (genreCount t)) tracks) = List.length tracks
<-> Forall (fun t => genreCount t <= 1) tracks.
Proof.
pose proof sum_max_ge as Hall. unfold list_sum in *.
induction tracks as [|t rest IH]; cbn [map List.length fold_right].
- split; auto.
- pose proof (Hall rest) as Hge. split.
  + intros H. constructor; [lia|]. apply IH. lia.
  + intros H. inversion H as [|? ? Ht Hrest]; subst.
    apply IH in Hrest. lia.
Qed.

(** X1.  The total shown in the page header counts a track once for each of
    its genres: over a returned result it is never below the number of input
    tracks, and it equals that number exactly when no track carries more
    than one genre. *)
Theorem header_total_counts_fan_out tracks result :
categorizeTracksByGenre tracks = Ok result ->
List.length tracks <= totalTracks result
/\ (totalTracks result = List.length tracks
    <-> Forall (fun track => genreCount track <= 1) tracks).
Proof.
intros H. rewrite (totalTracks_result _ _ H). split.
- apply sum_max_ge.
- apply sum_max_eq.
Qed.

Lemma header_total_counts_fan_out_witness :
let tracks := [track "t1" ["rock"; "pop"]; track "t2" []] in
let result := [("rock", [track "t1" ["rock"; "pop"]]);
               ("pop", [track "t1" ["rock"; "pop"]]);
               ("Uncategorized", [track "t2" []])] in
categorizeTracksByGenre tracks = Ok result
/\ List.length tracks <= totalTracks result
/\ (totalTracks result = List.length tracks
    <-> Forall (fun t => genreCount t <= 1) tracks).
Proof.
intros tracks result.
assert (H : categorizeTracksByGenre tracks = Ok result) by reflexivity.
split; [exact H|].
exact (header_total_counts_fan_out tracks result H).
Defined.

Lemma track_in_some_bucket tracks result track :
categorizeTracksByGenre tracks = Ok result ->
(In track tracks <-> exists k, In track (bucketOf result k)).
Proof.
intros H. split.
- intros Hin. destruct (trackKeys track) as [|k ks] eqn:E.
  + now apply trackKeys_nonempty in E.
  + exists k. apply (In_bucket _ _ _ _ H). split; auto. rewrite E. now left.
- intros [k Hk]. now apply (In_bucket _ _ _ _ H) in Hk.
Qed.

(** X2.  In a returned result every input track sits in at least one bucket
    and every track of a bucket is an input track: nothing is dropped and
    nothing is made up. *)
Theorem no_track_lost_or_invented tracks result track :
categorizeTracksByGenre tracks = Ok result ->
(In track tracks <-> exists k, In track (bucketOf result k)).
Proof. apply track_in_some_bucket. Qed.

Lemma no_track_lost_or_invented_witness :
let t1 := track "t1" ["rock"; "pop"] in
let t2 := track "t2" [] in
let result := [("rock", [t1]); ("pop", [t1]); ("Uncategorized", [t2])] in
categorizeTracksByGenre [t1; t2] = Ok result
/\ (In t2 [t1; t2] <-> exists k, In t2 (bucketOf result k)).
Proof.
intros t1 t2 result.
assert (H : categorizeTracksByGenre [t1; t2] = Ok result) by reflexivity.
split; [exact H|].
exact (no_track_lost_or_invented [t1; t2] result t2 H).
Defined.

Lemma bucket_nonempty tracks result k bucket :
categorizeTracksByGenre tracks = Ok result ->
own result k = Some bucket -> bucket <> [].
Proof.
intros H Hown Hnil. subst bucket.
assert (Hnone : own result k <> None) by congruence.
rewrite (own_result_None _ _ k H) in Hnone.
destruct (in_dec string_dec k (map fst (events tracks))) as [Hin|Hnin].
- apply In_event_keys in Hin. destruct Hin as [t [Ht Hk]].
  assert (Hb : In t (bucketOf result k)) by (apply (In_bucket _ _ _ _ H); auto).
  unfold bucketOf in Hb. now rewrite Hown in Hb.
- apply Hnone. intros [t Ht]. apply Hnin. apply In_event_keys. eauto.
Qed.

Lemma count_le_sum (l : list (list Track)) :
Forall (fun b => b <> []) l ->
List.length l <= list_sum (map (@List.length Track) l).
Proof.
induction 1 as [|b rest Hb _ IH]; simpl; auto.
destruct b; [contradiction | simpl; lia].
Qed.

(** X3.  A returned result has no empty bucket and no label twice, so the
    number of genres shown in the header is at most the total shown beside
    it. *)
Theorem no_empty_bucket tracks result :
categorizeTracksByGenre tracks = Ok result ->
NoDup (Js.keys result)
/\ (forall k bucket, own result k = Some bucket -> bucket <> [])
/\ categoryCount result <= totalTracks result.
Proof.
intros H. pose proof (result_NoDup _ _ H) as Hnd.
split; [now apply keys_NoDup|]. split.
- intros k bucket. apply (bucket_nonempty _ _ _ _ H).
- unfold categoryCount, totalTracks. rewrite reduce_lengths. simpl.
  rewrite (Permutation_length (keys_perm result)), length_map.
  rewrite (list_sum_perm _ _ (Permutation_map _ (values_perm result Hnd))).
  rewrite <- (length_map snd result). apply count_le_sum.
  apply Forall_forall. intros b Hb.
  apply (In_snd_own _ _ Hnd) in Hb. destruct Hb as [k Hk].
  apply (bucket_nonempty _ _ _ _ H Hk).
Qed.

Lemma no_empty_bucket_witness :
let t1 := track "t1" ["rock"; "pop"] in
let t2 := track "t2" ["rock"] in
let result := [("rock", [t1; t2]); ("pop", [t1])] in
categorizeTracksByGenre [t1; t2] = Ok result
/\ NoDup (Js.keys result)
/\ (forall k bucket, own result k = Some bucket -> bucket <> [])
/\ categoryCount result <= totalTracks result.
Proof.
intros t1 t2 result.
assert (H : categorizeTracksByGenre [t1; t2] = Ok result) by reflexivity.
split; [exact H|].
exact (no_empty_bucket [t1; t2] result H).
Defined.

(** X4.  The categorizer returns the empty object for the empty list, and
    for no other list: as soon as there is one track, a returned result has
    a bucket (["Uncategorized"] if nothing else). *)
Theorem empty_result_only_for_empty_input tracks result :
categorizeTracksByGenre tracks = Ok result ->
(Js.keys result = [] <-> tracks = []).
Proof.
intros H. split.
- intros Hk. destruct tracks as [|t rest]; auto.
  destruct (proj1 (track_in_some_bucket (t :: rest) result t H)
                  (or_introl eq_refl)) as [k Hin].
  unfold bucketOf in Hin. destruct (own result k) eqn:E; [|contradiction].
  apply own_Some_In in E.
  apply (Permutation_in _ (Permutation_sym (keys_perm result))) in E.
  rewrite Hk in E. contradiction.
- intros ->. inversion H. reflexivity.
Qed.
Lemma empty_result_only_for_empty_input_witness :
let t1 := track "t1" [] in
categorizeTracksByGenre [t1] = Ok [("Uncategorized", [t1])]
/\ (Js.keys [("Uncategorized", [t1])] = [] <-> [t1] = []).
Proof.
intros t1.
assert (H : categorizeTracksByGenre [t1] = Ok [("Uncategorized", [t1])])
  by reflexivity.
split; [exact H|].
exact (empty_result_only_for_empty_input [t1] _ H).
Defined.

Lemma proto_key_of_genre track k :
In k (trackKeys track) -> isPrototypeMember k = true ->
exists gs v, genres track = Some gs /\ In v gs /\ toPropertyKey v = k.
Proof.
unfold trackKeys. destruct (genres track) as [[|g gs]|].
- intros [<-|[]]. discriminate.
- intros Hin _. apply in_map_iff in Hin. destruct Hin as [v [Hv Hin]].
  exists (g :: gs), v. auto.
- intros [<-|[]]. discriminate.
Qed.

Lemma genre_key_of_track track gs v :
genres track = Some gs -> In v gs -> In (toPropertyKey v) (trackKeys track).
Proof.
intros Hgs Hv. unfold trackKeys. rewrite Hgs.
destruct gs as [|g rest]; [contradiction|]. now apply in_map.
Qed.

(** X5.  The categorizer fails in one way only.  It returns when no genre
    value of any track denotes a property name inherited from
    [Object.prototype]; otherwise it throws the [TypeError] of the failing
    [push], and a track carrying such a value exists. *)
Theorem categorizer_fails_only_on_inherited_names tracks :
match categorizeTracksByGenre tracks with
| Ok _ =>
    forall track gs v,
      In track tracks -> genres track = Some gs -> In v gs ->
      isPrototypeMember (toPropertyKey v) = false
| Throw e =>
    e = pushError
    /\ exists track gs v,
         In track tracks /\ genres track = Some gs /\ In v gs
         /\ isPrototypeMember (toPropertyKey v) = true
end.
Proof.
rewrite categorize_spec. destruct (allSafe (events tracks)) eqn:E.
- rewrite allSafe_iff in E. intros t gs v Ht Hgs Hv.
  apply (E t); auto. now apply (genre_key_of_track _ gs).
- split; auto. unfold allSafe in E.
  assert (Hex : existsb (fun e => isPrototypeMember (fst e)) (events tracks) = true).
  { clear - E. induction (events tracks) as [|e rest IH]; simpl in *; [discriminate|].
    destruct (isPrototypeMember (fst e)); simpl in *; auto. }
  apply existsb_exists in Hex. destruct Hex as [[k t] [Hin Hk]]. simpl in Hk.
  apply In_events in Hin. destruct Hin as [Ht Hin].
  destruct (proto_key_of_genre _ _ Hin Hk) as [gs [v [Hgs [Hv Hkey]]]].
  exists t, gs, v. subst k. auto.
Qed.

(** X6.  When no label is an array index, the keys of a returned result are
    listed by descending bucket size, and the labels whose buckets have the
    same size stand in the order in which the scan first met them. *)
Theorem labels_by_descending_size tracks result :
categorizeTracksByGenre tracks = Ok result ->
(forall track k, In track tracks -> In k (trackKeys track) -> isArrayIndex k = false) ->
StronglySorted
  (fun a b => List.length (bucketOf result b) <= List.length (bucketOf result a))
  (Js.keys result)
/\ forall n,
     filter (fun k => Nat.eqb (List.length (bucketOf result k)) n) (Js.keys result)
     = filter (fun k => Nat.eqb (List.length (bucketOf result k)) n)
              (firstSeen String.eqb (map fst (events tracks))).
Proof. apply keys_result_sorted. Qed.

Lemma labels_by_descending_size_witness :
let tracks := [track "t1" ["pop"]; track "t2" ["jazz"; "rock"]; track "t3" ["rock"]] in
let result := [("rock", [track "t2" ["jazz"; "rock"]; track "t3" ["rock"]]);
               ("pop", [track "t1" ["pop"]]);
               ("jazz", [track "t2" ["jazz"; "rock"]])] in
(categorizeTracksByGenre tracks = Ok result
 /\ forall t k, In t tracks -> In k (trackKeys t) -> isArrayIndex k = false)
/\ StronglySorted
     (fun a b => List.length (bucketOf result b) <= List.length (bucketOf result a))
     (Js.keys result)
/\ forall n,
     filter (fun k => Nat.eqb (List.length (bucketOf result k)) n) (Js.keys result)
     = filter (fun k => Nat.eqb (List.length (bucketOf result k)) n)
              (firstSeen String.eqb (map fst (events tracks))).
Proof.
intros tracks result.
assert (H1 : categorizeTracksByGenre tracks = Ok result) by reflexivity.
assert (H2 : forall t k, In t tracks -> In k (trackKeys t) -> isArrayIndex k = false).
{ intros t k [<-|[<-|[<-|[]]]]; simpl; intros Hk;
    repeat (destruct Hk as [<-|Hk]; [reflexivity|]); contradiction. }
split; [split; assumption|].
exact (labels_by_descending_size tracks result H1 H2).
Defined.
Lemma sort_ext {A : Type} (c1 c2 : A -> A -> Z) (l : list A) :
(forall a b, c1 a b = c2 a b) -> sort c1 l = sort c2 l.
Proof.
intros Hc. induction l as [|x rest IH]; simpl; auto.
rewrite IH. generalize (sort c2 rest). intros sorted.
induction sorted as [|y ys IHs]; simpl; auto.
now rewrite Hc, IHs.
Qed.

Lemma created_sorted tracks result :
categorizeTracksByGenre tracks = Ok result ->
map fst result
= sort (descending (fun k => List.length (bucketOf result k)))
       (keys (build (events tracks) [])).
Proof.
intros H. destruct (categorize_Ok _ _ H) as [_ Hfin].
pose proof (build_NoDup (events tracks)) as Hnd.
rewrite Hfin at 1. rewrite keys_finish by assumption.
apply sort_ext. intros a b. unfold bySizeDescending, descending.
subst result. now rewrite !bucketOf_finish.
Qed.

Lemma StronglySorted_filter {A : Type} (R : A -> A -> Prop) (f : A -> bool) l :
StronglySorted R l -> StronglySorted R (filter f l).
Proof.
induction 1 as [|x rest Hs IH Hall]; simpl; [constructor|].
destruct (f x); auto. constructor; auto.
rewrite Forall_forall in *. intros y Hy. apply filter_In in Hy. apply Hall, Hy.
Qed.

Lemma insertIndex_sorted x l :
StronglySorted (fun a b => (fst a <= fst b)%N) l ->
StronglySorted (fun a b => (fst a <= fst b)%N) (insertIndex x l).
Proof.
induction 1 as [|y rest Hs IH Hall]; simpl.
- repeat constructor.
- destruct (N.leb_spec (fst x) (fst y)) as [Hle|Hgt].
  + constructor; [now constructor|].
    constructor; auto.
    eapply Forall_impl; [|exact Hall]. simpl. intros z Hz. lia.
  + constructor; auto.
    rewrite Forall_forall in *. intros z Hz.
    apply (Permutation_in _ (insertIndex_perm x rest)) in Hz.
    destruct Hz as [<-|Hz]; [lia | auto].
Qed.

Lemma indexKeys_sorted ks :
StronglySorted (fun a b => (fst a <= fst b)%N) (indexKeys ks).
Proof.
induction ks as [|k rest IH]; simpl; [constructor|].
destruct (arrayIndex k); auto. now apply insertIndex_sorted.
Qed.

Lemma indexKeys_values ks :
Forall (fun p => arrayIndex (snd p) = Some (fst p)) (indexKeys ks).
Proof.
induction ks as [|k rest IH]; simpl; [constructor|].
destruct (arrayIndex k) as [n|] eqn:E; auto.
apply Forall_forall. intros p Hp.
apply (Permutation_in _ (insertIndex_perm (n, k) (indexKeys rest))) in Hp.
destruct Hp as [<-|Hp]; auto.
rewrite Forall_forall in IH. auto.
Qed.

Lemma indexKeys_ascending ks :
StronglySorted (fun a b => (indexValue a <= indexValue b)%N)
               (map snd (indexKeys ks))
/\ Forall (fun k => isArrayIndex k = true) (map snd (indexKeys ks)).
Proof.
pose proof (indexKeys_sorted ks) as Hs. pose proof (indexKeys_values ks) as Hv.
induction Hs as [|p rest Hs IH Hall]; simpl.
- split; constructor.
- inversion Hv as [|? ? Hp Hrest]; subst.
  destruct (IH Hrest) as [IH1 IH2]. split.
  + constructor; auto. rewrite Forall_forall in *. intros k Hk.
    apply in_map_iff in Hk. destruct Hk as [q [<- Hq]].
    unfold indexValue. rewrite Hp, (Hrest q Hq). now apply Hall.
  + constructor; auto. unfold isArrayIndex. now rewrite Hp.
Qed.

(** X7.  In every returned result the labels that are array indices are
    listed first, in ascending numeric order whatever the size of their
    buckets, and the other labels follow by descending bucket size. *)
Theorem index_labels_first_then_by_size tracks result :
categorizeTracksByGenre tracks = Ok result ->
exists indexLabels otherLabels,
  Js.keys result = indexLabels ++ otherLabels
  /\ Forall (fun k => isArrayIndex k = true) indexLabels
  /\ StronglySorted (fun a b => (indexValue a <= indexValue b)%N) indexLabels
  /\ Forall (fun k => isArrayIndex k = false) otherLabels
  /\ StronglySorted
       (fun a b => List.length (bucketOf result b) <= List.length (bucketOf result a))
       otherLabels.
Proof.
intros H.
exists (map snd (indexKeys (map fst result))),
       (filter (fun k => negb (isArrayIndex k)) (map fst result)).
destruct (indexKeys_ascending (map fst result)) as [Hasc Hidx].
repeat split; auto.
- apply Forall_forall. intros k Hk. apply filter_In in Hk.
  now apply negb_true_iff.
- apply StronglySorted_filter. rewrite (created_sorted _ _ H).
  apply (sort_sorted (fun k => List.length (bucketOf result k))).
Qed.

Lemma index_labels_first_then_by_size_witness :
let tracks := [track "t1" ["rock"; "1990"]; track "t2" ["rock"; "7"];
               track "t3" ["rock"; "pop"; "1990"]] in
let result := [("rock", tracks);
               ("1990", [track "t1" ["rock"; "1990"]; track "t3" ["rock"; "pop"; "1990"]]);
               ("7", [track "t2" ["rock"; "7"]]);
               ("pop", [track "t3" ["rock"; "pop"; "1990"]])] in
(categorizeTracksByGenre tracks = Ok result
 /\ Js.keys result = ["7"; "1990"; "rock"; "pop"])
/\ exists indexLabels otherLabels,
  Js.keys result = indexLabels ++ otherLabels
  /\ Forall (fun k => isArrayIndex k = true) indexLabels
  /\ StronglySorted (fun a b => (indexValue a <= indexValue b)%N) indexLabels
  /\ Forall (fun k => isArrayIndex k = false) otherLabels
  /\ StronglySorted
       (fun a b => List.length (bucketOf result b) <= List.length (bucketOf result a))
       otherLabels.
Proof.
intros tracks result.
assert (H : categorizeTracksByGenre tracks = Ok result) by reflexivity.
split; [split; [exact H | reflexivity]|].
exact (index_labels_first_then_by_size tracks result H).
Defined.

(** X8.  [enrichTracksWithGenres] reaches the backend through one request,
    the same whatever the network does, and what it returns is decided by
    the answer to that request alone.  The batch of identifiers in that
    request names every artist of every track, each one once, in the order
    in which the tracks first mention them. *)
Theorem batch_names_each_artist_once token tracks :
exists request,
  (forall fetch json,
      enrichTracksWithGenres fetch json token tracks
      = (response <- fetch request ;;
         artistGenreMap <- json response ;;
         Ok (map (enrichTrack artistGenreMap) tracks)))
  /\ url request = (BACKEND_URL ++ "/api/artists")%string
  /\ method request = "POST"
  /\ authorization request = ("Bearer " ++ token)%string
  /\ NoDup (artist_ids request)
  /\ (forall artistId,
        In artistId (artist_ids request)
        <-> exists track artist,
              In track tracks /\ In artist (artists track)
              /\ artist_id artist = artistId)
  /\ artist_ids request
     = firstSeen String.eqb
         (flat_map (fun track => map artist_id (artists track)) tracks).
Proof.
exists (artistsRequest token (uniqueArtistIds tracks)).
split.
{ intros fetch json. unfold enrichTracksWithGenres.
  rewrite fetchArtistGenres_batch.
  destruct (fetch (artistsRequest token (uniqueArtistIds tracks)))
    as [response|e]; cbn [bind]; [|reflexivity].
  destruct (json response); reflexivity. }
cbn [artistsRequest url method authorization artist_ids].
split; [reflexivity|]. split; [reflexivity|]. split; [reflexivity|].
unfold uniqueArtistIds. split; [|split].
- apply (spreadSet_NoDup String.eqb String.eqb_eq).
- intros artistId. rewrite (spreadSet_In String.eqb String.eqb_eq), in_flat_map.
  split.
  + intros [t [Ht Hin]]. apply in_map_iff in Hin.
    destruct Hin as [a [Ha Hin]]. eauto.
  + intros [t [a [Ht [Ha Hid]]]]. exists t. split; auto.
    apply in_map_iff. eauto.
- apply (spreadSet_firstSeen String.eqb String.eqb_eq).
Qed.

(** X9.  When every artist of a track either has an entry in the catalog or
    has an identifier that is not the name of a member of
    [Object.prototype], the genre list enrichment gives the track holds
    exactly the labels of the track's artists, each once, in order of first
    occurrence along the artist list. *)
Theorem enriched_genres_first_seen_union catalog track :
Forall (fun artist =>
          own catalog (artist_id artist) <> None \/ safeKey (artist_id artist))
       (artists track) ->
genres (enrichTrack catalog track)
= Some (map JString
          (firstSeen String.eqb (flat_map (labelsOf catalog) (artists track))))
/\ NoDup (firstSeen String.eqb (flat_map (labelsOf catalog) (artists track)))
/\ forall label,
     In label (firstSeen String.eqb (flat_map (labelsOf catalog) (artists track)))
     <-> exists artist,
           In artist (artists track) /\ In label (labelsOf catalog artist).
Proof.
intros Hsafe. rewrite (enrichTrack_first_seen_union _ _ Hsafe).
split; auto. split; [apply firstSeen_NoDup|].
intros label. rewrite firstSeen_In. apply in_flat_map.
Qed.

Lemma enriched_genres_first_seen_union_witness :
let catalog := [("a1", ["rock"; "pop"]); ("a2", ["pop"; "jazz"; "rock"])] in
let t := rawTrack "t1" ["a1"; "a9"; "a2"] in
Forall (fun artist =>
          own catalog (artist_id artist) <> None \/ safeKey (artist_id artist))
       (artists t)
/\ genres (enrichTrack catalog t)
   = Some (map JString
             (firstSeen String.eqb (flat_map (labelsOf catalog) (artists t))))
/\ NoDup (firstSeen String.eqb (flat_map (labelsOf catalog) (artists t)))
/\ forall label,
     In label (firstSeen String.eqb (flat_map (labelsOf catalog) (artists t)))
     <-> exists artist, In artist (artists t) /\ In label (labelsOf catalog artist).
Proof.
intros catalog t.
assert (H : Forall (fun artist =>
                      own catalog (artist_id artist) <> None
                      \/ safeKey (artist_id artist))
                   (artists t)).
{ repeat constructor; right; reflexivity. }
split; [exact H|].
exact (enriched_genres_first_seen_union catalog t H).
Defined.

(** X10.  Every track returned by [enrichTracksWithGenres] has its [genres]
    field set to a list without repeated values, whatever the catalog
    answered: labels shared by several artists, or repeated in one artist's
    entry, appear once. *)
Theorem enriched_genres_have_no_duplicates fetch json token tracks enriched :
enrichTracksWithGenres fetch json token tracks = Ok enriched ->
Forall (fun track => exists gs, genres track = Some gs /\ NoDup gs) enriched.
Proof.
intros H. apply enrich_Ok_inv in H. destruct H as [catalog [_ ->]].
apply Forall_forall. intros t' Hin. apply in_map_iff in Hin.
destruct Hin as [t [<- _]]. eexists. split; [reflexivity|].
apply (spreadSet_NoDup JsValue_eqb JsValue_eqb_eq).
Qed.

Lemma enriched_genres_have_no_duplicates_witness :
let catalog := [("a1", ["rock"; "rock"; "pop"]); ("a2", ["pop"])] in
let tracks := [rawTrack "t1" ["a1"; "a2"]] in
let enriched := [withGenres (rawTrack "t1" ["a1"; "a2"]) [JString "rock"; JString "pop"]] in
enrichTracksWithGenres answer (parsed catalog) "token" tracks = Ok enriched
/\ Forall (fun track => exists gs, genres track = Some gs /\ NoDup gs) enriched.
Proof.
intros catalog tracks enriched.
assert (H : enrichTracksWithGenres answer (parsed catalog) "token" tracks
            = Ok enriched) by reflexivity.
split; [exact H|].
exact (enriched_genres_have_no_duplicates answer (parsed catalog) "token"
         tracks enriched H).
Defined.
End CategorizerExtras.

(** ** Facts about strings *)

Module StringFacts.
Import JsString.

Lemma append_nil_r (s : string) : (s ++ "")%string = s.
Proof. induction s as [|c rest IH]; simpl; congruence. Qed.

Lemma append_assoc (a b c : string) :
((a ++ b) ++ c)%string = (a ++ (b ++ c))%string.
Proof. induction a as [|x rest IH]; simpl; congruence. Qed.

Lemma length_append (a b : string) :
String.length (a ++ b) = String.length a + String.length b.
Proof. induction a as [|x rest IH]; simpl; congruence. Qed.

Lemma mapChars_append f (a b : string) :
mapChars f (a ++ b) = (mapChars f a ++ mapChars f b)%string.
Proof. induction a as [|x rest IH]; simpl; congruence. Qed.

Lemma length_mapChars f s : String.length (mapChars f s) = String.length s.
Proof. induction s as [|x rest IH]; simpl; congruence. Qed.

Lemma isAscii_append a b :
isAscii (a ++ b) = (isAscii a && isAscii b)%bool.
Proof.
induction a as [|x rest IH]; simpl; auto.
rewrite IH. now rewrite andb_assoc.
Qed.

Lemma upperChar_idem c : upperChar (upperChar c) = upperChar c.
Proof. destruct c as [[] [] [] [] [] [] [] []]; reflexivity. Qed.

Lemma lower_upper c : lowerChar (upperChar c) = lowerChar c.
Proof. destruct c as [[] [] [] [] [] [] [] []]; reflexivity. Qed.

Lemma upperChar_space c : Ascii.eqb (upperChar c) " " = Ascii.eqb c " ".
Proof. destruct c as [[] [] [] [] [] [] [] []]; reflexivity. Qed.

Lemma upperChar_ascii c : isAsciiChar (upperChar c) = isAsciiChar c.
Proof. destruct c as [[] [] [] [] [] [] [] []]; reflexivity. Qed.

Lemma join_cons c sep piece pieces :
join sep (String c piece :: pieces) = String c (join sep (piece :: pieces)).
Proof. destruct pieces; reflexivity. Qed.

Lemma join_splitAt sep s :
join (String sep "") (fst (splitAt sep s) :: snd (splitAt sep s)) = s.
Proof.
induction s as [|c rest IH]; [reflexivity|].
cbn [splitAt].
destruct (splitAt sep rest) as [piece pieces]. cbn [fst snd] in IH.
destruct (Ascii.eqb_spec c sep) as [->|Hne]; cbn [fst snd].
- change (join (String sep "") ("" :: piece :: pieces))
    with (String sep (join (String sep "") (piece :: pieces))).
  now rewrite IH.
- now rewrite join_cons, IH.
Qed.

(** Splitting at a character and joining with it gives the string back. *)
Lemma join_split sep s : join (String sep "") (split sep s) = s.
Proof.
unfold split. pose proof (join_splitAt sep s) as H.
now destruct (splitAt sep s).
Qed.

Lemma splitAt_lacks sep s : lacks sep s = true -> splitAt sep s = (s, []).
Proof.
induction s as [|c rest IH]; simpl; auto.
intros H. apply andb_true_iff in H. destruct H as [Hc Hrest].
rewrite (IH Hrest). apply negb_true_iff in Hc. now rewrite Hc.
Qed.

Lemma splitAt_append sep piece rest :
lacks sep piece = true ->
splitAt sep (piece ++ String sep rest)
= (piece, fst (splitAt sep rest) :: snd (splitAt sep rest)).
Proof.
induction piece as [|c piece' IH]; simpl.
- intros _. rewrite Ascii.eqb_refl. now destruct (splitAt sep rest).
- intros H. apply andb_true_iff in H. destruct H as [Hc Hrest].
  rewrite (IH Hrest). apply negb_true_iff in Hc. now rewrite Hc.
Qed.

(** Joining pieces that lack the separator and splitting again gives the
    pieces back. *)
Lemma split_join sep piece pieces :
Forall (fun w => lacks sep w = true) (piece :: pieces) ->
split sep (join (String sep "") (piece :: pieces)) = piece :: pieces.
Proof.
revert piece. induction pieces as [|next rest IH]; intros piece H.
- inversion H; subst. unfold split. simpl. now rewrite splitAt_lacks.
- inversion H as [|? ? Hp Hrest]; subst.
  specialize (IH next Hrest). unfold split in *.
  change (join (String sep "") (piece :: next :: rest))
    with (piece ++ String sep (join (String sep "") (next :: rest)))%string.
  rewrite (splitAt_append _ _ _ Hp).
  destruct (splitAt sep (join (String sep "") (next :: rest))) as [q qs].
  simpl. now rewrite IH.
Qed.

Lemma splitAt_pieces_lack sep s :
lacks sep (fst (splitAt sep s)) = true
/\ Forall (fun w => lacks sep w = true) (snd (splitAt sep s)).
Proof.
induction s as [|c rest IH]; simpl; auto.
destruct (splitAt sep rest) as [piece pieces]. simpl in IH.
destruct IH as [Hp Hps].
destruct (Ascii.eqb c sep) eqn:E; simpl; split; auto.
now rewrite E.
Qed.

Lemma split_pieces_lack sep s : Forall (fun w => lacks sep w = true) (split sep s).
Proof.
unfold split. pose proof (splitAt_pieces_lack sep s) as H.
destruct (splitAt sep s). simpl in H. now constructor.
Qed.

Lemma split_nonempty sep s : exists piece pieces, split sep s = piece :: pieces.
Proof. unfold split. destruct (splitAt sep s). eauto. Qed.

Lemma prefix_append sub s t : String.prefix sub s = true -> String.prefix sub (s ++ t) = true.
Proof.
revert s. induction sub as [|c sub' IH]; intros s.
- intros _. now destruct (s ++ t)%string.
- destruct s as [|x s']; simpl; [discriminate|].
  destruct (ascii_dec c x); [apply IH | discriminate].
Qed.

Lemma includes_empty t : includes t "" = true.
Proof. destruct t; reflexivity. Qed.

Lemma includes_append_r s t sub : includes s sub = true -> includes (s ++ t) sub = true.
Proof.
induction s as [|c rest IH].
- destruct sub as [|x sub']; [intros _; apply includes_empty | discriminate].
- change (includes (String c rest) sub)
    with (if String.prefix sub (String c rest) then true else includes rest sub).
  change (includes (String c rest ++ t) sub)
    with (if String.prefix sub (String c rest ++ t) then true
          else includes (rest ++ t) sub).
  destruct (String.prefix sub (String c rest)) eqn:E.
  + intros _. now rewrite (prefix_append _ _ t E).
  + intros H. rewrite (IH H).
    now destruct (String.prefix sub (String c rest ++ t)).
Qed.

Lemma includes_append_l s t sub : includes t sub = true -> includes (s ++ t) sub = true.
Proof.
intros H. induction s as [|c rest IH]; auto.
change (includes (String c rest ++ t) sub)
  with (if String.prefix sub (String c rest ++ t) then true
        else includes (rest ++ t) sub).
rewrite IH. now destruct (String.prefix sub (String c rest ++ t)).
Qed.
End StringFacts.

(** ** [capitalizeGenre] and [getGenreEmoji] *)

Module Display.
Import JsString StringFacts.

Lemma capitalizeWord_idem word : capitalizeWord (capitalizeWord word) = capitalizeWord word.
Proof.
destruct word as [|c rest]; simpl; auto.
unfold capitalizeWord. simpl. now rewrite upperChar_idem.
Qed.

Lemma capitalizeWord_lower word :
toLowerCase (capitalizeWord word) = toLowerCase word.
Proof.
destruct word as [|c rest]; simpl; auto.
unfold capitalizeWord, toLowerCase. simpl. now rewrite lower_upper.
Qed.

Lemma capitalizeWord_length word :
String.length (capitalizeWord word) = String.length word.
Proof. destruct word; reflexivity. Qed.

Lemma capitalizeWord_lacks_space word :
lacks " " (capitalizeWord word) = lacks " " word.
Proof.
destruct word as [|c rest]; simpl; auto.
unfold capitalizeWord. simpl. now rewrite upperChar_space.
Qed.

Lemma capitalizeWord_ascii word : isAscii (capitalizeWord word) = isAscii word.
Proof.
destruct word as [|c rest]; simpl; auto.
unfold capitalizeWord. simpl. now rewrite upperChar_ascii.
Qed.

Lemma lower_join (f : string -> string) pieces :
(forall w, toLowerCase (f w) = toLowerCase w) ->
toLowerCase (join " " (map f pieces)) = toLowerCase (join " " pieces).
Proof.
intros Hf. induction pieces as [|w rest IH]; auto.
destruct rest as [|w' rest'].
- simpl. apply Hf.
- change (toLowerCase (f w ++ " " ++ join " " (map f (w' :: rest')))
          = toLowerCase (w ++ " " ++ join " " (w' :: rest'))).
  unfold toLowerCase in *. rewrite !mapChars_append, IH, Hf. reflexivity.
Qed.

Lemma length_join (f : string -> string) pieces :
(forall w, String.length (f w) = String.length w) ->
String.length (join " " (map f pieces)) = String.length (join " " pieces).
Proof.
intros Hf. induction pieces as [|w rest IH]; auto.
destruct rest as [|w' rest'].
- simpl. apply Hf.
- change (String.length (f w ++ " " ++ join " " (map f (w' :: rest')))
          = String.length (w ++ " " ++ join " " (w' :: rest'))).
  rewrite !length_append, IH, Hf. reflexivity.
Qed.

Lemma capitalized_lack_space words :
Forall (fun w => lacks " " w = true) words ->
Forall (fun w => lacks " " w = true) (map capitalizeWord words).
Proof.
induction 1 as [|w ws Hw _ IH]; cbn [map]; constructor; auto.
now rewrite capitalizeWord_lacks_space.
Qed.

(** The words of the capitalized label are the capitalized words of the
    label: every space stays where it is. *)
Lemma split_capitalizeGenre genre :
split " " (capitalizeGenre genre) = map capitalizeWord (split " " genre).
Proof.
unfold capitalizeGenre.
pose proof (split_pieces_lack " " genre) as H.
destruct (split_nonempty " " genre) as [piece [pieces E]].
rewrite E in *. cbn [map].
apply (split_join " "%char).
change (capitalizeWord piece :: map capitalizeWord pieces)
  with (map capitalizeWord (piece :: pieces)).
now apply capitalized_lack_space.
Qed.

Lemma capitalizeGenre_idem genre :
capitalizeGenre (capitalizeGenre genre) = capitalizeGenre genre.
Proof.
unfold capitalizeGenre at 1. rewrite split_capitalizeGenre, map_map.
unfold capitalizeGenre. f_equal. apply map_ext. apply capitalizeWord_idem.
Qed.

Lemma capitalizeGenre_lower genre :
toLowerCase (capitalizeGenre genre) = toLowerCase genre.
Proof.
unfold capitalizeGenre. rewrite (lower_join _ _ capitalizeWord_lower).
now rewrite (join_split " "%char).
Qed.

Lemma capitalizeGenre_length genre :
String.length (capitalizeGenre genre) = String.length genre.
Proof.
unfold capitalizeGenre. rewrite (length_join _ _ capitalizeWord_length).
now rewrite (join_split " "%char).
Qed.

Lemma getGenreEmoji_lower a b :
toLowerCase a = toLowerCase b -> getGenreEmoji a = getGenreEmoji b.
Proof. intros H. unfold getGenreEmoji. now rewrite H. Qed.
End Display.

Module DisplayExtras.
Import JsString StringFacts Display.

(** X11.  For a label of ASCII characters, capitalizing is idempotent: a
    label that went through [capitalizeGenre] comes out of it unchanged. *)
Theorem capitalizing_twice_is_once genre :
isAscii genre = true ->
capitalizeGenre (capitalizeGenre genre) = capitalizeGenre genre.
Proof. intros _. apply capitalizeGenre_idem. Qed.

Lemma capitalizing_twice_is_once_witness :
isAscii "indie  rock and roll " = true
/\ capitalizeGenre "indie  rock and roll " = "Indie  Rock And Roll "
/\ capitalizeGenre (capitalizeGenre "indie  rock and roll ")
   = capitalizeGenre "indie  rock and roll ".
Proof.
assert (H : isAscii "indie  rock and roll " = true) by reflexivity.
split; [exact H|]. split; [reflexivity|].
exact (capitalizing_twice_is_once "indie  rock and roll " H).
Defined.

(** X12.  For a label of ASCII characters, [capitalizeGenre] changes the
    case of letters and nothing else: the result has the length of the
    label, the same words between the same spaces, each word capitalized,
    and it reads the same as the label once both are put in lower case. *)
Theorem capitalizing_changes_case_only genre :
isAscii genre = true ->
String.length (capitalizeGenre genre) = String.length genre
/\ toLowerCase (capitalizeGenre genre) = toLowerCase genre
/\ split " " (capitalizeGenre genre) = map capitalizeWord (split " " genre).
Proof.
intros _. split; [apply capitalizeGenre_length|].
split; [apply capitalizeGenre_lower | apply split_capitalizeGenre].
Qed.

Lemma capitalizing_changes_case_only_witness :
isAscii "hip hop   r&b" = true
/\ String.length (capitalizeGenre "hip hop   r&b") = String.length "hip hop   r&b"
/\ toLowerCase (capitalizeGenre "hip hop   r&b") = toLowerCase "hip hop   r&b"
/\ split " " (capitalizeGenre "hip hop   r&b")
   = map capitalizeWord (split " " "hip hop   r&b").
Proof.
assert (H : isAscii "hip hop   r&b" = true) by reflexivity.
split; [exact H|].
exact (capitalizing_changes_case_only "hip hop   r&b" H).
Defined.

Lemma lower_of_upper s : toLowerCase (toUpperCase s) = toLowerCase s.
Proof.
unfold toLowerCase, toUpperCase.
induction s as [|c rest IH]; simpl; auto. now rewrite lower_upper, IH.
Qed.

(** X13.  The emoji of a label of ASCII characters does not depend on the
    case of its letters: the page shows the emoji of the raw label beside
    the capitalized label, and [getGenreEmoji] gives the same emoji for the
    capitalized label and for the label in capitals. *)
Theorem emoji_ignores_letter_case genre :
isAscii genre = true ->
getGenreEmoji (capitalizeGenre genre) = getGenreEmoji genre
/\ getGenreEmoji (toUpperCase genre) = getGenreEmoji genre.
Proof.
intros _. split; apply getGenreEmoji_lower.
- apply capitalizeGenre_lower.
- apply lower_of_upper.
Qed.

Lemma emoji_ignores_letter_case_witness :
isAscii "deep house jazz" = true
/\ getGenreEmoji (capitalizeGenre "deep house jazz") = getGenreEmoji "deep house jazz"
/\ getGenreEmoji (toUpperCase "deep house jazz") = getGenreEmoji "deep house jazz".
Proof.
assert (H : isAscii "deep house jazz" = true) by reflexivity.
split; [exact H|].
exact (emoji_ignores_letter_case "deep house jazz" H).
Defined.

(** X14.  Matching is by substring and the first test wins: an ASCII label
    that contains "rock" in any letter case gets the guitar whatever stands
    before and after it, also when the label contains keywords of later
    tests. *)
Theorem rock_wins_anywhere before genre after :
isAscii (before ++ genre ++ after) = true ->
includes (toLowerCase genre) "rock" = true ->
getGenreEmoji (before ++ genre ++ after) = "🎸".
Proof.
intros _ H. unfold getGenreEmoji.
assert (Hin : includes (toLowerCase (before ++ genre ++ after)) "rock" = true).
{ unfold toLowerCase in *. rewrite !mapChars_append.
  apply includes_append_l, includes_append_r, H. }
now rewrite Hin.
Qed.

Lemma rock_wins_anywhere_witness :
(isAscii ("indie pop " ++ "Rockabilly" ++ " metal") = true
 /\ includes (toLowerCase "Rockabilly") "rock" = true)
/\ getGenreEmoji ("indie pop " ++ "Rockabilly" ++ " metal") = "🎸".
Proof.
assert (H1 : isAscii ("indie pop " ++ "Rockabilly" ++ " metal") = true)
  by reflexivity.
assert (H2 : includes (toLowerCase "Rockabilly") "rock" = true) by reflexivity.
split; [split; assumption|].
exact (rock_wins_anywhere "indie pop " "Rockabilly" " metal" H1 H2).
Defined.
End DisplayExtras.

(** ** The PKCE verifier and challenge *)

Module Pkce.
Import JsString StringFacts.

Lemma get_In n s c : String.get n s = Some c -> In c (list_ascii_of_string s).
Proof.
revert n. induction s as [|x rest IH]; intros n; simpl; [discriminate|].
destruct n as [|n']; [intros H; inversion H; auto | eauto].
Qed.

Lemma allChars_list test s :
allChars test s = forallb test (list_ascii_of_string s).
Proof. induction s as [|c rest IH]; simpl; congruence. Qed.

Lemma allChars_append test a b :
allChars test (a ++ b) = (allChars test a && allChars test b)%bool.
Proof.
induction a as [|x rest IH]; simpl; auto. rewrite IH. now rewrite andb_assoc.
Qed.

Lemma charAt_possible i :
allChars isAlphanumeric (charAt possible i) = true
/\ String.length (charAt possible i) <= 1.
Proof.
unfold charAt. destruct (i <? 0)%Z; [split; auto|].
destruct (String.get (Z.to_nat i) possible) as [c|] eqn:E; [|split; auto].
split; [|simpl; lia]. simpl. rewrite andb_true_r.
apply get_In in E.
assert (Hall : forallb isAlphanumeric (list_ascii_of_string possible) = true)
  by reflexivity.
rewrite forallb_forall in Hall. auto.
Qed.

Lemma get_in_range n s :
n < String.length s -> exists c, String.get n s = Some c.
Proof.
revert n. induction s as [|x rest IH]; intros n; simpl; [lia|].
destruct n as [|n']; [eauto | intros H; apply IH; lia].
Qed.

Lemma charAt_in_range i :
(0 <= i < 62)%Z -> String.length (charAt possible i) = 1.
Proof.
intros H. unfold charAt.
destruct (Z.ltb_spec i 0) as [Hneg|_]; [lia|].
destruct (get_in_range (Z.to_nat i) possible) as [c ->]; [|reflexivity].
change (String.length possible) with 62. lia.
Qed.

Lemma verifierLoop_chars draw i remaining text :
allChars isAlphanumeric text = true ->
allChars isAlphanumeric (verifierLoop draw i remaining text) = true.
Proof.
revert i text. induction remaining as [|r IH]; intros i text H; simpl; auto.
apply IH. rewrite allChars_append, H.
apply (charAt_possible (draw i)).
Qed.

Lemma verifierLoop_length_le draw i remaining text :
String.length (verifierLoop draw i remaining text)
<= String.length text + remaining.
Proof.
revert i text. induction remaining as [|r IH]; intros i text; simpl; [lia|].
specialize (IH (S i) (text ++ charAt possible (draw i))%string).
rewrite length_append in IH.
pose proof (proj2 (charAt_possible (draw i))). lia.
Qed.

Lemma verifierLoop_length draw i remaining text :
(forall j, i <= j < i + remaining -> (0 <= draw j < 62)%Z) ->
String.length (verifierLoop draw i remaining text)
= String.length text + remaining.
Proof.
revert i text. induction remaining as [|r IH]; intros i text H; simpl; [lia|].
rewrite IH.
- rewrite length_append, charAt_in_range; [lia|]. apply H. lia.
- intros j Hj. apply H. lia.
Qed.
Lemma string_ind3 (P : string -> Prop) :
P EmptyString ->
(forall a, P (String a EmptyString)) ->
(forall a b, P (String a (String b EmptyString))) ->
(forall a b c rest, P rest -> P (String a (String b (String c rest)))) ->
forall s, P s.
Proof.
intros H0 H1 H2 H3.
assert (H : forall s, P s /\ (forall a, P (String a s))
                      /\ (forall a b, P (String a (String b s)))).
{ induction s as [|c rest [IH0 [IH1 IH2]]]; auto. }
intros s. apply H.
Qed.

Lemma In_sextets n : (n < 64)%N -> In n sextets.
Proof.
intros H. unfold sextets. apply in_map_iff. exists (N.to_nat n).
split; [apply N2Nat.id|]. apply in_seq. lia.
Qed.

Lemma urlChar_safe n :
(n < 64)%N ->
isUrlSafe (urlChar n) = true /\ Ascii.eqb (urlChar n) "=" = false.
Proof.
intros H. apply In_sextets in H.
assert (Hall : forallb (fun n => isUrlSafe (urlChar n)
                                 && negb (Ascii.eqb (urlChar n) "="))%bool
                       sextets = true) by (vm_compute; reflexivity).
rewrite forallb_forall in Hall. specialize (Hall n H).
apply andb_true_iff in Hall. destruct Hall as [H1 H2].
split; auto. now apply negb_true_iff.
Qed.

Lemma urlChar_injective n m :
(n < 64)%N -> (m < 64)%N -> urlChar n = urlChar m -> n = m.
Proof.
intros Hn Hm Heq. apply In_sextets in Hn. apply In_sextets in Hm.
assert (Hall : forallb (fun n =>
                 forallb (fun m => implb (Ascii.eqb (urlChar n) (urlChar m))
                                         (N.eqb n m)) sextets) sextets = true)
  by (vm_compute; reflexivity).
rewrite forallb_forall in Hall. specialize (Hall n Hn).
rewrite forallb_forall in Hall. specialize (Hall m Hm).
rewrite Heq, Ascii.eqb_refl in Hall. simpl in Hall. now apply N.eqb_eq.
Qed.

Lemma byte_bound (a : ascii) : (N_of_ascii a < 256)%N.
Proof. apply N_ascii_bounded. Qed.

Lemma sextet1 x : (x < 256 -> x / 4 < 64)%N.
Proof. intros H. apply N.Div0.div_lt_upper_bound. lia. Qed.

Lemma sextet2 x y : (y < 256 -> (x mod 4) * 16 + y / 16 < 64)%N.
Proof.
intros H. pose proof (N.mod_upper_bound x 4 ltac:(lia)).
assert (y / 16 < 16)%N by (apply N.Div0.div_lt_upper_bound; lia). lia.
Qed.

Lemma sextet2' x : ((x mod 4) * 16 < 64)%N.
Proof. pose proof (N.mod_upper_bound x 4 ltac:(lia)). lia. Qed.

Lemma sextet3 y z : (z < 256 -> (y mod 16) * 4 + z / 64 < 64)%N.
Proof.
intros H. pose proof (N.mod_upper_bound y 16 ltac:(lia)).
assert (z / 64 < 4)%N by (apply N.Div0.div_lt_upper_bound; lia). lia.
Qed.

Lemma sextet3' y : ((y mod 16) * 4 < 64)%N.
Proof. pose proof (N.mod_upper_bound y 16 ltac:(lia)). lia. Qed.

Lemma sextet4 z : (z mod 64 < 64)%N.
Proof. apply N.mod_upper_bound. lia. Qed.

Lemma stripPadding_cons c s :
Ascii.eqb c "=" = false -> stripPadding (String c s) = String c (stripPadding s).
Proof. intros H. simpl. rewrite H. now destruct (stripPadding s). Qed.

Lemma replaced_cons n s :
replaced (String (base64Char n) s) = String (urlChar n) (replaced s).
Proof. reflexivity. Qed.

(** The three replacements applied to [btoa] give the base64url form. *)
Lemma challenge_encoding s : stripPadding (replaced (btoa s)) = base64url s.
Proof.
induction s as [|a|a b|a b c rest IH] using string_ind3.
- reflexivity.
- pose proof (byte_bound a).
  cbn [btoa base64url]. rewrite !replaced_cons.
  rewrite !stripPadding_cons; [reflexivity | |];
    apply urlChar_safe; [apply sextet2' | now apply sextet1].
- pose proof (byte_bound a). pose proof (byte_bound b).
  cbn [btoa base64url]. rewrite !replaced_cons.
  rewrite !stripPadding_cons; [reflexivity | | |];
    apply urlChar_safe;
    [apply sextet3' | now apply sextet2 | now apply sextet1].
- pose proof (byte_bound a). pose proof (byte_bound b). pose proof (byte_bound c).
  cbn [btoa base64url]. rewrite !replaced_cons.
  rewrite !stripPadding_cons; [now rewrite IH | | | |];
    apply urlChar_safe;
    [apply sextet4 | now apply sextet3 | now apply sextet2 | now apply sextet1].
Qed.

Lemma base64url_safe s : allChars isUrlSafe (base64url s) = true.
Proof.
induction s as [|a|a b|a b c rest IH] using string_ind3;
  cbn [base64url allChars]; auto;
  repeat match goal with
         | |- (isUrlSafe (urlChar ?n) && _)%bool = true =>
             rewrite (proj1 (urlChar_safe n ltac:(
               first [ apply sextet4 | apply sextet3' | apply sextet2'
                     | apply sextet3, byte_bound | apply sextet2, byte_bound
                     | apply sextet1, byte_bound ]))); cbn [andb]
         end; auto.
Qed.

Lemma base64url_length s :
String.length (base64url s) = (4 * String.length s + 2) / 3.
Proof.
induction s as [|a|a b|a b c rest IH] using string_ind3;
  cbn [base64url String.length]; auto.
rewrite IH.
replace (4 * S (S (S (String.length rest))) + 2)
  with ((4 * String.length rest + 2) + 4 * 3) by lia.
rewrite Nat.div_add by lia. lia.
Qed.

Lemma byte_of_sextets x y :
(x / 4 = y / 4 -> x mod 4 = y mod 4 -> x = y)%N.
Proof.
intros H1 H2. rewrite (N.div_mod x 4), (N.div_mod y 4) by lia. lia.
Qed.

Lemma split_sextet (hi lo hi' lo' k : N) :
(0 < k -> lo < k -> lo' < k -> hi * k + lo = hi' * k + lo' ->
 hi = hi' /\ lo = lo')%N.
Proof.
intros Hk Hlo Hlo' H.
assert (hi = hi')%N by nia. subst. split; auto. lia.
Qed.

Lemma N_of_ascii_injective a b : N_of_ascii a = N_of_ascii b -> a = b.
Proof.
intros H. rewrite <- (ascii_N_embedding a), <- (ascii_N_embedding b).
now rewrite H.
Qed.
Lemma byte_parts x x' k :
(0 < k -> x / k = x' / k -> x mod k = x' mod k -> x = x')%N.
Proof.
intros Hk H1 H2. rewrite (N.div_mod x k), (N.div_mod x' k) by lia.
now rewrite H1, H2.
Qed.

Lemma chunk_injective x y z x' y' z' :
(y < 256 -> z < 256 -> y' < 256 -> z' < 256 ->
 x / 4 = x' / 4 ->
 (x mod 4) * 16 + y / 16 = (x' mod 4) * 16 + y' / 16 ->
 (y mod 16) * 4 + z / 64 = (y' mod 16) * 4 + z' / 64 ->
 z mod 64 = z' mod 64 ->
 x = x' /\ y = y' /\ z = z')%N.
Proof.
intros Hy Hz Hy' Hz' H1 H2 H3 H4.
apply split_sextet in H2; [| lia | apply N.Div0.div_lt_upper_bound; lia
                            | apply N.Div0.div_lt_upper_bound; lia].
apply split_sextet in H3; [| lia | apply N.Div0.div_lt_upper_bound; lia
                            | apply N.Div0.div_lt_upper_bound; lia].
destruct H2 as [H2a H2b]. destruct H3 as [H3a H3b].
repeat split.
- apply (byte_parts x x' 4); auto; lia.
- apply (byte_parts y y' 16); auto; lia.
- apply (byte_parts z z' 64); auto; lia.
Qed.

(** Different byte strings have different base64url forms. *)
Lemma base64url_injective s t : base64url s = base64url t -> s = t.
Proof.
revert t. induction s as [|a|a b|a b c rest IH] using string_ind3;
  intros t; destruct t as [|a' [|b' [|c' rest']]];
  cbn [base64url]; intros H; try discriminate H; auto.
- pose proof (byte_bound a) as Ba. pose proof (byte_bound a') as Bap.
  injection H as H1 H2.
  apply urlChar_injective in H1; [| now apply sextet1 | now apply sextet1].
  apply urlChar_injective in H2; [| apply sextet2' | apply sextet2'].
  assert (Hx : N_of_ascii a = N_of_ascii a').
  { apply (byte_parts _ _ 4); auto; lia. }
  f_equal. now apply N_of_ascii_injective.
- pose proof (byte_bound a) as Ba. pose proof (byte_bound a') as Bap.
  pose proof (byte_bound b) as Bb. pose proof (byte_bound b') as Bbp.
  injection H as H1 H2 H3.
  apply urlChar_injective in H1; [| now apply sextet1 | now apply sextet1].
  apply urlChar_injective in H2; [| now apply sextet2 | now apply sextet2].
  apply urlChar_injective in H3; [| apply sextet3' | apply sextet3'].
  destruct (chunk_injective (N_of_ascii a) (N_of_ascii b) 0
                            (N_of_ascii a') (N_of_ascii b') 0)
    as [Hx [Hy _]]; auto; try reflexivity.
  { change (0 / 64)%N with 0%N. now rewrite !N.add_0_r. }
  f_equal; [now apply N_of_ascii_injective|].
  f_equal. now apply N_of_ascii_injective.
- pose proof (byte_bound a) as Ba. pose proof (byte_bound a') as Bap.
  pose proof (byte_bound b) as Bb. pose proof (byte_bound b') as Bbp.
  pose proof (byte_bound c) as Bc. pose proof (byte_bound c') as Bcp.
  injection H as H1 H2 H3 H4 Hrest.
  apply urlChar_injective in H1; [| now apply sextet1 | now apply sextet1].
  apply urlChar_injective in H2; [| now apply sextet2 | now apply sextet2].
  apply urlChar_injective in H3; [| now apply sextet3 | now apply sextet3].
  apply urlChar_injective in H4; [| apply sextet4 | apply sextet4].
  destruct (chunk_injective (N_of_ascii a) (N_of_ascii b) (N_of_ascii c)
                            (N_of_ascii a') (N_of_ascii b') (N_of_ascii c'))
    as [Hx [Hy Hz]]; auto.
  apply IH in Hrest. subst rest'.
  f_equal; [now apply N_of_ascii_injective|].
  f_equal; [now apply N_of_ascii_injective|].
  f_equal. now apply N_of_ascii_injective.
Qed.
End Pkce.

Module PkceExtras.
Import JsString StringFacts Pkce.

(** X15.  Whatever numbers the random draws give, the code verifier holds
    letters and digits only and is never longer than the length asked for:
    a draw out of range adds nothing. *)
Theorem verifier_is_alphanumeric draw length :
allChars isAlphanumeric (generateCodeVerifier draw length) = true
/\ String.length (generateCodeVerifier draw length) <= length.
Proof.
unfold generateCodeVerifier. split.
- now apply verifierLoop_chars.
- apply (verifierLoop_length_le draw 0 length "").
Qed.

(** X16.  When every draw is an index into the 62 characters of [possible],
    the code verifier has exactly the length asked for. *)
Theorem verifier_has_requested_length draw length :
(forall i, i < length -> (0 <= draw i < 62)%Z) ->
String.length (generateCodeVerifier draw length) = length.
Proof.
intros H. unfold generateCodeVerifier.
rewrite verifierLoop_length; [reflexivity|].
intros j Hj. apply H. lia.
Qed.

Lemma verifier_has_requested_length_witness :
let draw := fun i => Z.of_nat ((i * 7) mod 62) in
(forall i, i < 128 -> (0 <= draw i < 62)%Z)
/\ String.length (generateCodeVerifier draw 128) = 128.
Proof.
intros draw.
assert (H : forall i, i < 128 -> (0 <= draw i < 62)%Z).
{ intros i _. unfold draw.
  pose proof (Nat.mod_upper_bound (i * 7) 62 ltac:(lia)). lia. }
split; [exact H|].
exact (verifier_has_requested_length draw 128 H).
Defined.

(** X17.  Whatever the digest, the code challenge is made of letters,
    digits, [-] and [_] only: no [+], no [/] and no [=] is left in it. *)
Theorem challenge_is_url_safe sha256 codeVerifier :
allChars isUrlSafe (generateCodeChallenge sha256 codeVerifier) = true.
Proof.
unfold generateCodeChallenge.
change (allChars isUrlSafe (stripPadding (replaced (btoa (sha256 codeVerifier))))
        = true).
rewrite challenge_encoding. apply base64url_safe.
Qed.

(** X18.  A digest of [n] bytes gives a code challenge of [(4n + 2) / 3]
    characters, the integer part of the quotient: 43 characters for the 32
    bytes of a SHA-256 digest. *)
Theorem challenge_length sha256 codeVerifier n :
String.length (sha256 codeVerifier) = n ->
String.length (generateCodeChallenge sha256 codeVerifier) = (4 * n + 2) / 3.
Proof.
intros <-. unfold generateCodeChallenge.
change (String.length (stripPadding (replaced (btoa (sha256 codeVerifier))))
        = (4 * String.length (sha256 codeVerifier) + 2) / 3).
rewrite challenge_encoding. apply base64url_length.
Qed.

Lemma challenge_length_witness :
let sha256 := fun _ : string => "0123456789abcdef0123456789abcdef" in
String.length (sha256 "verifier") = 32
/\ String.length (generateCodeChallenge sha256 "verifier") = 43.
Proof.
intros sha256.
assert (H : String.length (sha256 "verifier") = 32) by reflexivity.
split; [exact H|].
exact (challenge_length sha256 "verifier" 32 H).
Defined.

(** X19.  The encoding of the digest loses nothing: two code verifiers with
    the same code challenge have the same digest. *)
Theorem challenge_determines_digest sha256 verifier1 verifier2 :
generateCodeChallenge sha256 verifier1 = generateCodeChallenge sha256 verifier2 ->
sha256 verifier1 = sha256 verifier2.
Proof.
unfold generateCodeChallenge.
change (stripPadding (replaced (btoa (sha256 verifier1)))
        = stripPadding (replaced (btoa (sha256 verifier2)))
        -> sha256 verifier1 = sha256 verifier2).
rewrite !challenge_encoding. apply base64url_injective.
Qed.

Lemma challenge_determines_digest_witness :
let sha256 := fun s : string => String.substring 0 2 s in
generateCodeChallenge sha256 "abX" = generateCodeChallenge sha256 "abY"
/\ sha256 "abX" = sha256 "abY".
Proof.
intros sha256.
assert (H : generateCodeChallenge sha256 "abX" = generateCodeChallenge sha256 "abY")
  by reflexivity.
split; [exact H|].
exact (challenge_determines_digest sha256 "abX" "abY" H).
Defined.
End PkceExtras.

(** ** Numbers as text *)

Module NumberFacts.
Import JsNumber.

Lemma horner_acc d p : N.pos (Pos.of_uint_acc d p) = horner d (N.pos p).
Proof.
revert p.
induction d; intros p; cbn [Pos.of_uint_acc horner]; auto;
  rewrite IHd; f_equal; lia.
Qed.

Lemma horner_of_uint d : horner d 0 = N.of_uint d.
Proof.
unfold N.of_uint.
induction d; cbn [Pos.of_uint horner]; auto;
  change (0 * 10 + 1)%N with 1%N; change (0 * 10 + 2)%N with 2%N;
  change (0 * 10 + 3)%N with 3%N; change (0 * 10 + 4)%N with 4%N;
  change (0 * 10 + 5)%N with 5%N; change (0 * 10 + 6)%N with 6%N;
  change (0 * 10 + 7)%N with 7%N; change (0 * 10 + 8)%N with 8%N;
  change (0 * 10 + 9)%N with 9%N;
  now rewrite horner_acc.
Qed.

Lemma parseDigits_uint d acc :
parseDigits 10 (NilEmpty.string_of_uint d) (Some acc) = Some (horner d acc).
Proof.
revert acc. induction d; intros acc; auto;
  cbn [NilEmpty.string_of_uint parseDigits horner];
  match goal with
  | |- context [digitValue 10 ?c] =>
      let v := eval vm_compute in (digitValue 10 c) in
      change (digitValue 10 c) with v
  end; cbv iota beta; rewrite IHd; f_equal; f_equal; lia.
Qed.

Lemma parseDigits_uint_fresh d :
d <> Decimal.Nil ->
parseDigits 10 (NilEmpty.string_of_uint d) None = Some (horner d 0).
Proof.
intros Hd. destruct d; [contradiction| ..];
  cbn [NilEmpty.string_of_uint parseDigits horner];
  match goal with
  | |- context [digitValue 10 ?c] =>
      let v := eval vm_compute in (digitValue 10 c) in
      change (digitValue 10 c) with v
  end; cbv iota beta; rewrite parseDigits_uint; reflexivity.
Qed.

(** A decimal numeral is read back as the number it writes. *)
Lemma parseInt_uint d :
d <> Decimal.Nil ->
parseInt (NilEmpty.string_of_uint d) = Some (Z.of_N (N.of_uint d)).
Proof.
intros Hd. rewrite <- horner_of_uint.
pose proof (parseDigits_uint_fresh d Hd) as Hp.
assert (Hone : forall n, (1 * Z.of_N n)%Z = Z.of_N n) by (intros; lia).
destruct d as [|d'|d'|d'|d'|d'|d'|d'|d'|d'|d']; [contradiction| ..].
2-10: (unfold parseInt; cbn [NilEmpty.string_of_uint] in *;
       cbn -[parseDigits horner Z.mul Z.of_N]; rewrite Hp, Hone; reflexivity).
unfold parseInt.
destruct d'; cbn [NilEmpty.string_of_uint] in *;
  cbn -[parseDigits horner Z.mul Z.of_N]; rewrite Hp, Hone; reflexivity.
Qed.

Lemma parseInt_toString n : (0 <= n)%Z -> parseInt (toString n) = Some n.
Proof.
intros Hn. unfold toString. destruct n as [|p|p]; [reflexivity | | lia].
cbn [Z.to_int NilZero.string_of_int].
pose proof (DecimalPos.Unsigned.to_uint_nonnil p) as Hnil.
unfold NilZero.string_of_uint.
destruct (Pos.to_uint p) eqn:E; try contradiction;
  rewrite <- E; rewrite parseInt_uint by (rewrite E; discriminate);
  change (N.of_uint (Pos.to_uint p)) with (Pos.of_uint (Pos.to_uint p));
  now rewrite DecimalPos.Unsigned.of_to.
Qed.

Lemma toString_nonempty n : toString n <> EmptyString.
Proof.
unfold toString. destruct n as [|p|p].
- discriminate.
- cbn [Z.to_int NilZero.string_of_int].
  unfold NilZero.string_of_uint. destruct (Pos.to_uint p); discriminate.
- discriminate.
Qed.
End NumberFacts.

(** ** The session *)

Module Session.
Import Js JsFacts JsNumber NumberFacts.

Lemma getItem_setItem st k v k' :
getItem (setItem st k v) k' = if String.eqb k k' then Some v else getItem st k'.
Proof. apply own_set. Qed.

Lemma getItem_removeItem st k k' :
getItem (removeItem st k) k' = if String.eqb k' k then None else getItem st k'.
Proof.
unfold getItem, removeItem.
induction st as [|[k0 v0] rest IH]; simpl.
- now destruct (String.eqb k' k).
- destruct (String.eqb k0 k) eqn:E; simpl.
  + apply String.eqb_eq in E. subst k0. rewrite IH.
    rewrite (String.eqb_sym k k').
    destruct (String.eqb k' k); reflexivity.
  + destruct (String.eqb k0 k') eqn:E'; [|exact IH].
    apply String.eqb_eq in E'. subst k0. now rewrite E.
Qed.

Lemma truthy_Some s : s <> EmptyString -> truthy (Some s) = true.
Proof. destruct s; [contradiction | reflexivity]. Qed.

Lemma truthy_text v : truthy v = true -> exists s, v = Some s /\ s <> EmptyString.
Proof.
destruct v as [[|c rest]|]; try discriminate. intros _. eexists. split; eauto.
discriminate.
Qed.

(** The test of [init] on a storage that holds a token and the expiry
    written for the time [t]. *)
Lemma storedTokenValid_written env w token t :
(0 <= t)%Z ->
token <> EmptyString ->
getItem (storage w) "access_token" = Some token ->
getItem (storage w) "token_expiry" = Some (toString (t + 3600000)) ->
storedTokenValid env w = (nowAtCheck env <? t + 3600000)%Z.
Proof.
intros Ht Htok Ha He. unfold storedTokenValid. rewrite Ha, He.
rewrite (truthy_Some _ Htok), (truthy_Some _ (toString_nonempty _)).
cbn [textOr andb]. rewrite parseInt_toString by lia. reflexivity.
Qed.

Lemma loadUserData_shown env accessToken w :
showUserData env (textOr "undefined" accessToken) = Ok tt ->
loadUserData env accessToken w
= {| storage := storage w; location := location w;
     historyReplaced := historyReplaced w;
     displayed := Some (textOr "undefined" accessToken) |}.
Proof. intros H. unfold loadUserData. now rewrite H. Qed.

Lemma loadUserData_failed env accessToken w e :
showUserData env (textOr "undefined" accessToken) = Throw e ->
loadUserData env accessToken w = redirectToAuthCodeFlow env (clearSession w).
Proof. intros H. unfold loadUserData. now rewrite H. Qed.

Lemma cleared_tokens env w :
getItem (storage (redirectToAuthCodeFlow env (clearSession w))) "access_token" = None
/\ getItem (storage (redirectToAuthCodeFlow env (clearSession w))) "token_expiry" = None.
Proof.
unfold redirectToAuthCodeFlow, clearSession, withStorage. cbn [storage].
rewrite !getItem_setItem, !getItem_removeItem. cbn. split; reflexivity.
Qed.

Lemma redirect_keeps_tokens env w k :
k <> "verifier" ->
getItem (storage (redirectToAuthCodeFlow env w)) k = getItem (storage w) k.
Proof.
intros Hk. unfold redirectToAuthCodeFlow. cbn [storage].
rewrite getItem_setItem.
destruct (String.eqb_spec "verifier" k); [congruence | reflexivity].
Qed.

Lemma loadUserData_outcome env accessToken w :
location w = None ->
displayed w = None ->
(displayed (loadUserData env accessToken w) = Some (textOr "undefined" accessToken)
 /\ location (loadUserData env accessToken w) = None
 /\ storage (loadUserData env accessToken w) = storage w)
\/ (displayed (loadUserData env accessToken w) = None
    /\ loadUserData env accessToken w = redirectToAuthCodeFlow env (clearSession w)).
Proof.
intros Hl Hd. unfold loadUserData.
destruct (showUserData env (textOr "undefined" accessToken)) as [[]|e].
- left. cbn. auto.
- right. split; auto.
Qed.
End Session.

Module SessionExtras.
Import Js JsFacts JsNumber NumberFacts Session.

Lemma redirect_outcome env w :
displayed (redirectToAuthCodeFlow env w) = displayed w
/\ exists nav,
     location (redirectToAuthCodeFlow env w) = Some nav
     /\ code_challenge nav
        = generateCodeChallenge (digest env) (generateCodeVerifier (draw env) 128)
     /\ getItem (storage (redirectToAuthCodeFlow env w)) "verifier"
        = Some (generateCodeVerifier (draw env) 128).
Proof.
split; [reflexivity|]. eexists. split; [reflexivity|]. split; [reflexivity|].
unfold redirectToAuthCodeFlow. cbn [storage]. rewrite getItem_setItem.
reflexivity.
Qed.

(** X20.  A token obtained for a code lasts one hour.  After [init] has
    exchanged a code for a token at time [t] and shown the user's data, a
    later [init] reuses that token, whatever code the address holds, as
    long as its clock reads less than [t + 3600000]; from that instant on,
    and without a code, it sends the browser to the authorization page. *)
Theorem session_lasts_one_hour env1 env2 code w0 token :
storedTokenValid env1 w0 = false ->
code <> EmptyString ->
getAccessToken env1 code w0 = Ok (Some token) ->
token <> EmptyString ->
showUserData env1 token = Ok tt ->
(0 <= nowAtStore env1)%Z ->
displayed (init env1 (Some code) w0) = Some token
/\ (forall code2,
      (nowAtCheck env2 < nowAtStore env1 + 3600000)%Z ->
      init env2 code2 (init env1 (Some code) w0)
      = loadUserData env2 (Some token) (init env1 (Some code) w0))
/\ ((nowAtStore env1 + 3600000 <= nowAtCheck env2)%Z ->
    init env2 None (init env1 (Some code) w0)
    = redirectToAuthCodeFlow env2 (init env1 (Some code) w0)).
Proof.
intros Hinvalid Hcode Hexchange Htoken Hshow Hnow.
set (w1 := init env1 (Some code) w0).
assert (Hw1 : w1 = {| storage :=
                        setItem (setItem (storage w0) "access_token" token)
                                "token_expiry"
                                (toString (nowAtStore env1 + 3600000));
                      location := location w0;
                      historyReplaced := true;
                      displayed := Some token |}).
{ unfold w1, init. rewrite Hinvalid, (truthy_Some _ Hcode). cbn [textOr].
  rewrite Hexchange. now rewrite loadUserData_shown. }
assert (Hvalid : storedTokenValid env2 w1
                 = (nowAtCheck env2 <? nowAtStore env1 + 3600000)%Z).
{ apply (storedTokenValid_written env2 w1 token); auto;
    rewrite Hw1; cbn [storage]; rewrite !getItem_setItem; reflexivity. }
assert (Hstored : getItem (storage w1) "access_token" = Some token).
{ rewrite Hw1. cbn [storage]. rewrite !getItem_setItem. reflexivity. }
split; [now rewrite Hw1|]. split.
- intros code2 Hlt. unfold init. rewrite Hvalid.
  destruct (Z.ltb_spec (nowAtCheck env2) (nowAtStore env1 + 3600000)); [|lia].
  now rewrite Hstored.
- intros Hge. unfold init. rewrite Hvalid.
  destruct (Z.ltb_spec (nowAtCheck env2) (nowAtStore env1 + 3600000)); [lia|].
  reflexivity.
Qed.

(** X21.  [init] ends in one of two ways, never both and never neither:
    the user's data is shown and the browser stays on the page, or nothing
    is shown and the browser is sent to the authorization page, with the
    challenge of a freshly generated verifier that is kept in the
    storage. *)
Theorem init_shows_data_or_redirects env code w :
location w = None ->
displayed w = None ->
(exists bearer,
    displayed (init env code w) = Some bearer
    /\ location (init env code w) = None)
\/ (displayed (init env code w) = None
    /\ exists nav,
         location (init env code w) = Some nav
         /\ code_challenge nav
            = generateCodeChallenge (digest env)
                                    (generateCodeVerifier (draw env) 128)
         /\ getItem (storage (init env code w)) "verifier"
            = Some (generateCodeVerifier (draw env) 128)).
Proof.
intros Hl Hd.
assert (Hredirect : forall w', displayed w' = None ->
          displayed (redirectToAuthCodeFlow env w') = None
          /\ exists nav,
               location (redirectToAuthCodeFlow env w') = Some nav
               /\ code_challenge nav
                  = generateCodeChallenge (digest env)
                                          (generateCodeVerifier (draw env) 128)
               /\ getItem (storage (redirectToAuthCodeFlow env w')) "verifier"
                  = Some (generateCodeVerifier (draw env) 128)).
{ intros w' Hw'. destruct (redirect_outcome env w') as [H1 H2].
  split; [congruence | exact H2]. }
assert (Hload : forall accessToken w',
          location w' = None -> displayed w' = None ->
          (exists bearer,
              displayed (loadUserData env accessToken w') = Some bearer
              /\ location (loadUserData env accessToken w') = None)
          \/ (displayed (loadUserData env accessToken w') = None
              /\ exists nav,
                   location (loadUserData env accessToken w') = Some nav
                   /\ code_challenge nav
                      = generateCodeChallenge (digest env)
                          (generateCodeVerifier (draw env) 128)
                   /\ getItem (storage (loadUserData env accessToken w'))
                              "verifier"
                      = Some (generateCodeVerifier (draw env) 128))).
{ intros accessToken w' Hl' Hd'.
  destruct (loadUserData_outcome env accessToken w' Hl' Hd')
    as [[H1 [H2 _]]|[_ H2]].
  - left. eauto.
  - right. rewrite H2. apply Hredirect. exact Hd'. }
unfold init. destruct (storedTokenValid env w).
- now apply Hload.
- destruct (truthy code).
  + destruct (getAccessToken env (textOr "" code) w) as [accessToken|e].
    * now apply Hload.
    * right. now apply Hredirect.
  + right. now apply Hredirect.
Qed.

Lemma session_lasts_one_hour_witness :
let env1 := Samples.page 1000 (Ok (Some "token")) true in
let env2 := Samples.page 3000000 (Throw (Rejection "unused")) true in
let w0 := Samples.firstLoad in
(storedTokenValid env1 w0 = false
 /\ "abc" <> EmptyString
 /\ getAccessToken env1 "abc" w0 = Ok (Some "token")
 /\ "token" <> EmptyString
 /\ showUserData env1 "token" = Ok tt
 /\ (0 <= nowAtStore env1)%Z)
/\ displayed (init env1 (Some "abc") w0) = Some "token"
/\ (forall code2,
      (nowAtCheck env2 < nowAtStore env1 + 3600000)%Z ->
      init env2 code2 (init env1 (Some "abc") w0)
      = loadUserData env2 (Some "token") (init env1 (Some "abc") w0))
/\ ((nowAtStore env1 + 3600000 <= nowAtCheck env2)%Z ->
    init env2 None (init env1 (Some "abc") w0)
    = redirectToAuthCodeFlow env2 (init env1 (Some "abc") w0)).
Proof.
intros env1 env2 w0.
assert (H1 : storedTokenValid env1 w0 = false) by reflexivity.
assert (H2 : "abc" <> EmptyString) by discriminate.
assert (H3 : getAccessToken env1 "abc" w0 = Ok (Some "token")) by reflexivity.
assert (H4 : "token" <> EmptyString) by discriminate.
assert (H5 : showUserData env1 "token" = Ok tt) by reflexivity.
assert (H6 : (0 <= nowAtStore env1)%Z) by (cbn; lia).
split; [repeat split; assumption|].
exact (session_lasts_one_hour env1 env2 "abc" w0 "token" H1 H2 H3 H4 H5 H6).
Defined.

Lemma init_shows_data_or_redirects_witness :
let env := Samples.page 1000 (Throw (Rejection "Failed to fetch")) true in
let w := Samples.firstLoad in
(location w = None /\ displayed w = None)
/\ ((exists bearer,
       displayed (init env (Some "abc") w) = Some bearer
       /\ location (init env (Some "abc") w) = None)
    \/ (displayed (init env (Some "abc") w) = None
        /\ exists nav,
             location (init env (Some "abc") w) = Some nav
             /\ code_challenge nav
                = generateCodeChallenge (digest env)
                                        (generateCodeVerifier (draw env) 128)
             /\ getItem (storage (init env (Some "abc") w)) "verifier"
                = Some (generateCodeVerifier (draw env) 128))).
Proof.
intros env w.
assert (H1 : location w = None) by reflexivity.
assert (H2 : displayed w = None) by reflexivity.
split; [split; assumption|].
exact (init_shows_data_or_redirects env (Some "abc") w H1 H2).
Defined.

(** X22.  When [init] ends by sending the browser to the authorization
    page, what is left of the stored session depends on the way there: if a
    stored token was taken for valid, or the address held a code, the
    access token and its expiry are gone from the storage; otherwise both
    are left exactly as they were, also when they are out of date. *)
Theorem stored_session_after_redirect env code w :
location w = None ->
displayed w = None ->
location (init env code w) <> None ->
if (storedTokenValid env w || truthy code)%bool
then getItem (storage (init env code w)) "access_token" = None
     /\ getItem (storage (init env code w)) "token_expiry" = None
else getItem (storage (init env code w)) "access_token"
     = getItem (storage w) "access_token"
     /\ getItem (storage (init env code w)) "token_expiry"
        = getItem (storage w) "token_expiry".
Proof.
intros Hl Hd.
assert (Hload : forall accessToken w',
          location w' = None -> displayed w' = None ->
          location (loadUserData env accessToken w') <> None ->
          getItem (storage (loadUserData env accessToken w')) "access_token" = None
          /\ getItem (storage (loadUserData env accessToken w')) "token_expiry"
             = None).
{ intros accessToken w' Hl' Hd' Hnav.
  destruct (loadUserData_outcome env accessToken w' Hl' Hd')
    as [[_ [H2 _]]|[_ H2]]; [contradiction|].
  rewrite H2. apply cleared_tokens. }
unfold init. destruct (storedTokenValid env w); cbn [orb].
- now apply Hload.
- destruct (truthy code).
  + destruct (getAccessToken env (textOr "" code) w) as [accessToken|e].
    * now apply Hload.
    * intros _. apply cleared_tokens.
  + intros _. split; apply redirect_keeps_tokens; discriminate.
Qed.

Lemma stored_session_after_redirect_witness :
let env := Samples.page 5000 (Ok (Some "token")) true in
let w := {| storage := [("access_token", "old"); ("token_expiry", "4000")];
            location := None; historyReplaced := false; displayed := None |} in
(location w = None /\ displayed w = None /\ location (init env None w) <> None)
/\ if (storedTokenValid env w || truthy None)%bool
   then getItem (storage (init env None w)) "access_token" = None
        /\ getItem (storage (init env None w)) "token_expiry" = None
   else getItem (storage (init env None w)) "access_token"
        = getItem (storage w) "access_token"
        /\ getItem (storage (init env None w)) "token_expiry"
           = getItem (storage w) "token_expiry".
Proof.
intros env w.
assert (H1 : location w = None) by reflexivity.
assert (H2 : displayed w = None) by reflexivity.
assert (H3 : location (init env None w) <> None) by discriminate.
split; [repeat split; assumption|].
exact (stored_session_after_redirect env None w H1 H2 H3).
Defined.

(** X23.  [init] does not look at what the token endpoint answered: when
    the answer has no [access_token], the text [undefined] is stored as the
    access token with an expiry one hour ahead, and the user's data is
    requested with it. *)
Theorem missing_access_token_is_stored_as_text env code w :
storedTokenValid env w = false ->
code <> EmptyString ->
getAccessToken env code w = Ok None ->
init env (Some code) w
= loadUserData env None
    {| storage := setItem (setItem (storage w) "access_token" "undefined")
                          "token_expiry"
                          (toString (nowAtStore env + 3600000));
       location := location w;
       historyReplaced := true;
       displayed := displayed w |}
/\ (showUserData env "undefined" = Ok tt ->
    displayed (init env (Some code) w) = Some "undefined"
    /\ getItem (storage (init env (Some code) w)) "access_token"
       = Some "undefined").
Proof.
intros Hinvalid Hcode Hexchange.
assert (Hinit : init env (Some code) w
  = loadUserData env None
      {| storage := setItem (setItem (storage w) "access_token" "undefined")
                            "token_expiry"
                            (toString (nowAtStore env + 3600000));
         location := location w;
         historyReplaced := true;
         displayed := displayed w |}).
{ unfold init. rewrite Hinvalid, (truthy_Some _ Hcode). cbn [textOr].
  now rewrite Hexchange. }
split; [exact Hinit|].
intros Hshow. rewrite Hinit, loadUserData_shown by exact Hshow.
cbn [displayed storage textOr]. split; [reflexivity|].
rewrite !getItem_setItem. reflexivity.
Qed.

Lemma missing_access_token_is_stored_as_text_witness :
let env := Samples.page 1000 (Ok None) true in
let w := Samples.firstLoad in
(storedTokenValid env w = false
 /\ "abc" <> EmptyString
 /\ getAccessToken env "abc" w = Ok None)
/\ init env (Some "abc") w
   = loadUserData env None
       {| storage := setItem (setItem (storage w) "access_token" "undefined")
                             "token_expiry"
                             (toString (nowAtStore env + 3600000));
          location := location w;
          historyReplaced := true;
          displayed := displayed w |}
/\ (showUserData env "undefined" = Ok tt ->
    displayed (init env (Some "abc") w) = Some "undefined"
    /\ getItem (storage (init env (Some "abc") w)) "access_token"
       = Some "undefined").
Proof.
intros env w.
assert (H1 : storedTokenValid env w = false) by reflexivity.
assert (H2 : "abc" <> EmptyString) by discriminate.
assert (H3 : getAccessToken env "abc" w = Ok None) by reflexivity.
split; [repeat split; assumption|].
exact (missing_access_token_is_stored_as_text env "abc" w H1 H2 H3).
Defined.

(** X24.  The verifier sent to the token endpoint is the one whose
    challenge went to the authorization page: after
    [redirectToAuthCodeFlow], the request [getAccessToken] builds from the
    storage carries a [code_verifier] that hashes to the [code_challenge]
    of the redirect, and the same redirect address. *)
Theorem exchange_sends_the_verifier_of_the_challenge env1 env2 code w :
exists nav,
  location (redirectToAuthCodeFlow env1 w) = Some nav
  /\ generateCodeChallenge (digest env1)
       (code_verifier (tokenRequest env2 code (redirectToAuthCodeFlow env1 w)))
     = code_challenge nav
  /\ token_redirect_uri (tokenRequest env2 code (redirectToAuthCodeFlow env1 w))
     = authorize_redirect_uri nav
  /\ getAccessToken env2 code (redirectToAuthCodeFlow env1 w)
     = tokenEndpoint env2
         {| token_url := "https://accounts.spotify.com/api/token";
            token_client_id := clientId env2;
            grant_type := "authorization_code";
            code := code;
            token_redirect_uri := authorize_redirect_uri nav;
            code_verifier := generateCodeVerifier (draw env1) 128 |}.
Proof.
eexists. split; [reflexivity|].
unfold getAccessToken, tokenRequest, redirectToAuthCodeFlow.
cbn [storage code_verifier code_challenge token_redirect_uri
     authorize_redirect_uri].
rewrite getItem_setItem. cbn. repeat split.
Qed.
End SessionExtras.
